(** * Beartooth demo: QUBO construction and sample decoding

    A shallow embedding of [beartooth.py].  The landscape is a grid of
    integer altitudes; [_get_qubo] builds the coefficient dictionary of a
    QUBO over a unary encoding of the two coordinates, [_parse_coord]
    decodes one axis of a sample, and [_interpret_samples] accumulates the
    occurrence counts of the decoded coordinates in a [defaultdict(int)].

    Python values are modelled as follows: integers are [Z], lists are
    [list], the dictionaries keyed by pairs of integers are
    [gmap (Z * Z) Z], and a computation that may raise is a [Py.result]. *)

From stdpp Require Import base option list numbers gmap fin_maps.

Local Open Scope Z_scope.

(** ** The fragment of Python the program uses *)

Module Py.

(** The only exception the modelled code can raise: an out-of-range
    subscript of a list. *)
Inductive exn : Type := IndexError.

Inductive result (A : Type) : Type :=
| Ok (a : A)
| Raise (e : exn).
Global Arguments Ok {A} a.
Global Arguments Raise {A} e.

Definition bind {A B : Type} (c : result A) (k : A → result B) : result B :=
  match c with
  | Ok a => k a
  | Raise e => Raise e
  end.

(** [len(l)] *)
Definition len {A : Type} (l : list A) : Z := Z.of_nat (length l).

(** [range(a, b)]; empty when [b <= a]. *)
Definition range (a b : Z) : list Z := seqZ a (b - a).

(** [l[i]] on a list: a negative subscript counts from the end, and a
    subscript outside [-len(l) .. len(l) - 1] raises [IndexError]. *)
Definition getitem {A : Type} (l : list A) (i : Z) : result A :=
  let j := if bool_decide (i < 0) then i + len l else i in
  if bool_decide (j < 0) then Raise IndexError
  else match l !! Z.to_nat j with
       | Some a => Ok a
       | None => Raise IndexError
       end.

(** [enumerate(l)] *)
Definition enumerate {A : Type} (l : list A) : list (Z * A) :=
  zip (seqZ 0 (len l)) l.

(** Evaluation of [f] on the elements of a list from left to right,
    stopping at the first exception: the body of a comprehension, or of
    Python 2's eager [map]. *)
Fixpoint mapM {A B : Type} (f : A → result B) (l : list A) : result (list B) :=
  match l with
  | [] => Ok []
  | a :: l' =>
      bind (f a) (λ b, bind (mapM f l') (λ bs, Ok (b :: bs)))
  end.

(** A loop that threads a state through the elements of a list. *)
Fixpoint foldM {A S : Type} (f : S → A → result S) (s : S) (l : list A)
  : result S :=
  match l with
  | [] => Ok s
  | a :: l' => bind (f s a) (λ s', foldM f s' l')
  end.

(** A dictionary keyed by pairs of integers. *)
Abbreviation dict := (gmap (Z * Z) Z).

(** [{k: v for ...}] from the items in the order the comprehension
    yields them: a later item replaces an earlier one with the same key. *)
Definition dict_of_items (items : list (Z * Z * Z)) : dict :=
  foldl (λ d kv, <[kv.1 := kv.2]> d) ∅ items.

(** [d.update(e)]: the entries of [e] replace those of [d]. *)
Definition update (d e : dict) : dict := e ∪ d.

(** [d[k]] on a [defaultdict(int)]: a missing key is entered with the
    default [int() = 0], which is returned. *)
Definition defaultdict_getitem (d : dict) (k : Z * Z) : Z * dict :=
  match d !! k with
  | Some v => (v, d)
  | None => (0, <[k := 0]> d)
  end.

End Py.

Import Py.

#[global] Instance result_bind : MBind result := λ A B k c, Py.bind c k.
#[global] Instance result_ret : MRet result := @Py.Ok.

(** ** Module constants *)

Definition ENCODING_BIAS : Z := 5.

(** [f(x, y) = LANDSCAPE[x][y]] *)
Definition LANDSCAPE : list (list Z) :=
  [ [ 4; 3; 2; 2; 3; 2; 3; 4; 4; 5 ];
    [ 3; 2; 1; 2; 2; 2; 2; 3; 4; 6 ];
    [ 3; 2; 0; 1; 2; 2; 3; 3; 5; 7 ];
    [ 3; 2; 1; 1; 2; 2; 3; 5; 7; 8 ];
    [ 3; 2; 1; 2; 3; 4; 4; 6; 7; 7 ];
    [ 2; 2; 3; 4; 4; 5; 6; 7; 6; 5 ];
    [ 2; 3; 3; 4; 5; 7; 7; 6; 5; 4 ];
    [ 4; 5; 5; 6; 6; 9; 8; 7; 5; 4 ];
    [ 5; 6; 6; 7; 8; 8; 7; 7; 6; 5 ];
    [ 7; 7; 8; 9; 9; 9; 8; 8; 6; 5 ] ].

Definition EMBEDDING : list (list Z) :=
  [ [122; 218; 222; 314]; [113; 209; 305; 309; 317]; [104; 200; 296; 301];
    [107; 203; 205; 299]; [114; 210; 213; 306]; [115; 211; 307];
    [123; 215; 219; 223; 315]; [105; 201; 207; 297]; [106; 202; 298];
    [302; 310; 318]; [300; 308; 312; 316]; [204; 212; 216; 220];
    [206; 208; 214]; [111; 112; 119; 127]; [108; 116; 120; 124];
    [110; 118; 126]; [109; 117; 121; 125]; [217; 303; 311; 313; 319] ].

(** ** The program, for an arbitrary landscape

    The functions of the module read the global [LANDSCAPE]; here the grid
    is a parameter, so that the behaviour on other grids can be stated.
    The program itself is the instance at [LANDSCAPE]. *)

Section Program.

Variable grid : list (list Z).

(** [LANDSCAPE[x][y]] *)
Definition altitude (x y : Z) : result Z :=
  row ← getitem grid x; getitem row y.

Definition _x_shift (x : Z) : result Z :=
  a ← altitude (x + 1) 0;
  b ← altitude x 0;
  Ok (a - b).

Definition _y_shift (y : Z) : result Z :=
  a ← altitude 0 (y + 1);
  b ← altitude 0 y;
  Ok (a - b).

Definition _angle_shift (x y : Z) : result Z :=
  a ← altitude (x + 1) (y + 1);
  b ← altitude x (y + 1);
  c ← altitude (x + 1) y;
  d ← altitude x y;
  Ok (a - b - c + d).

(** variables: [[ x0 ... xn-2 y0 ... yn-2 ]] *)
Definition num_vars : Z := len grid - 1.
Definition x_vars : list Z := range 0 num_vars.
Definition y_vars : list Z := range num_vars (2 * num_vars).

(** The items of the five comprehensions of [_get_qubo], in the order
    they are yielded. *)
Definition x_diag_items : result (list (Z * Z * Z)) :=
  mapM (λ x, xv ← getitem x_vars x;
             sh ← _x_shift x;
             Ok ((xv, xv), ENCODING_BIAS + sh))
       (range 1 num_vars).

Definition y_diag_items : result (list (Z * Z * Z)) :=
  mapM (λ y, yv ← getitem y_vars y;
             sh ← _y_shift y;
             Ok ((yv, yv), ENCODING_BIAS + sh))
       (range 1 num_vars).

Definition cross_items : result (list (Z * Z * Z)) :=
  mapM (λ xy : Z * Z,
             xv ← getitem x_vars xy.1;
             yv ← getitem y_vars xy.2;
             sh ← _angle_shift xy.1 xy.2;
             Ok ((xv, yv), sh))
       (x ← range 0 num_vars; (λ y, (x, y)) <$> range 0 num_vars).

Definition x_adj_items : result (list (Z * Z * Z)) :=
  mapM (λ x, xv ← getitem x_vars x;
             xp ← getitem x_vars (x - 1);
             Ok ((xv, xp), - ENCODING_BIAS))
       (range 1 num_vars).

Definition y_adj_items : result (list (Z * Z * Z)) :=
  mapM (λ y, yv ← getitem y_vars y;
             yp ← getitem y_vars (y - 1);
             Ok ((yv, yp), - ENCODING_BIAS))
       (range 1 num_vars).

(** [_get_qubo()].  In an assignment [Q[k] = e] the right-hand side is
    evaluated before the subscript. *)
Definition _get_qubo : result dict :=
  xd ← x_diag_items;
  let Q := dict_of_items xd in
  sx0 ← _x_shift 0;
  x0 ← getitem x_vars 0;
  let Q := <[(x0, x0) := sx0]> Q in
  yd ← y_diag_items;
  let Q := update Q (dict_of_items yd) in
  sy0 ← _y_shift 0;
  y0 ← getitem y_vars 0;
  let Q := <[(y0, y0) := sy0]> Q in
  cr ← cross_items;
  let Q := update Q (dict_of_items cr) in
  xa ← x_adj_items;
  let Q := update Q (dict_of_items xa) in
  ya ← y_adj_items;
  let Q := update Q (dict_of_items ya) in
  Ok Q.

(** The loop of [_parse_coord] over [enumerate(variables)], with the
    running value of [coord]; [Ok None] is the early [return None]. *)
Fixpoint parse_loop (sample : list Z) (vs : list (Z * Z)) (coord : Z)
  : result (option Z) :=
  match vs with
  | [] => Ok (Some coord)
  | (v, v_index) :: rest =>
      b ← getitem sample v_index;
      if bool_decide (b = 1) then
        let coord := v + 1 in
        if bool_decide (v ≠ 0) then
          p ← getitem sample (v_index - 1);
          if bool_decide (p = 0) then Ok None
          else parse_loop sample rest coord
        else parse_loop sample rest coord
      else parse_loop sample rest coord
  end.

Definition _parse_coord (sample : list Z) (variables : list Z)
  : result (option Z) :=
  parse_loop sample (enumerate variables) 0.

(** The inner function [_interpret_sample]; the table it closes over is
    passed in and returned. *)
Definition _interpret_sample (table : dict) (sample : list Z * Z)
  : result dict :=
  let '(s, num) := sample in
  x ← _parse_coord s x_vars;
  match x with
  | None => Ok table
  | Some x =>
      y ← _parse_coord s y_vars;
      match y with
      | None => Ok table
      | Some y =>
          let '(old, table) := defaultdict_getitem table (x, y) in
          Ok (<[(x, y) := old + num]> table)
      end
  end.

(** [_interpret_samples(samples)]: Python 2's [map] calls
    [_interpret_sample] on every sample, in order, before returning. *)
Definition _interpret_samples (samples : list (list Z * Z)) : result dict :=
  foldM _interpret_sample ∅ samples.

End Program.

(** ** Notions the claims are stated with *)

(** [tbl[x, y]] as the caller reads it. *)
Definition table_lookup (table : dict) (x y : Z) : Z :=
  (defaultdict_getitem table (x, y)).1.

(** Bit [i] of a sample is set when [sample[i] == 1]. *)
Definition bit_set (s : list Z) (i : Z) : bool :=
  match getitem s i with
  | Ok b => bool_decide (b = 1)
  | Raise _ => false
  end.

(** The term an entry [Q[i, j] = c] contributes to the energy of a
    sample: [c] when both bits are set. *)
Definition qubo_term (s : list Z) (kv : Z * Z * Z) : Z :=
  if bit_set s kv.1.1 && bit_set s kv.1.2 then kv.2 else 0.

Definition Zsum (l : list Z) : Z := foldr Z.add 0 l.

(** The QUBO energy of a sample: the sum of the coefficients whose pair of
    variables has both bits set. *)
Definition qubo_energy (Q : dict) (s : list Z) : Z :=
  Zsum (qubo_term s <$> map_to_list Q).

(** The unary code of [c] on [k] bits, as the docstring of [_parse_coord]
    defines it: [v_i = 1] for [0 <= i < c] and [v_i = 0] for [c <= i < k]. *)
Definition unary (k c : Z) : list Z :=
  replicate (Z.to_nat c) 1 ++ replicate (Z.to_nat (k - c)) 0.

(** The canonical sample of the coordinates [(x, y)] on a grid of side
    [k + 1]: the x block followed by the y block. *)
Definition encode (k x y : Z) : list Z := unary k x ++ unary k y.

(** The pairs [enumerate] yields on the block of variables that starts at
    [lo], from position [a] on. *)
Definition block_from (lo a n : Z) : list (Z * Z) :=
  (λ v, (v, lo + v)) <$> seqZ a n.

(** The [k] bits of the block at [lo] are those of the unary code of [c]. *)
Definition encodes (s : list Z) (lo k c : Z) : Prop :=
  ∀ i, 0 ≤ i < k →
    getitem s (lo + i) = Ok (if bool_decide (i < c) then 1 else 0).

(** Every subscript of the block at [lo] is within the sample. *)
Definition in_range (s : list Z) (lo k : Z) : Prop :=
  ∀ i, 0 ≤ i < k → ∃ b, getitem s (lo + i) = Ok b.

(** What [_interpret_sample] decodes from a sample, apart from the table:
    the pair of coordinates, or [None] when an axis is rejected. *)
Definition decode_sample (grid : list (list Z)) (s : list Z)
  : result (option (Z * Z)) :=
  x ← _parse_coord s (x_vars grid);
  match x with
  | None => Ok None
  | Some x =>
      y ← _parse_coord s (y_vars grid);
      match y with
      | None => Ok None
      | Some y => Ok (Some (x, y))
      end
  end.

(** The update [table[k] += num] of a [defaultdict(int)]. *)
Definition credit (table : dict) (k : Z * Z) (num : Z) : dict :=
  <[k := default 0 (table !! k) + num]> table.

(** The occurrences a sample contributes to the entry [k]. *)
Definition credited (grid : list (list Z)) (k : Z * Z) (sample : list Z * Z)
  : Z :=
  match decode_sample grid sample.1 with
  | Ok (Some k') => if bool_decide (k' = k) then sample.2 else 0
  | _ => 0
  end.

(** ** Well-formed grids and the coefficients in closed form *)

(** The grid has at least two rows, and every row has at least as many
    entries as there are rows: the subscripts of [_get_qubo] are in range. *)
Definition well_formed (grid : list (list Z)) : Prop :=
  2 ≤ len grid ∧ Forall (λ row : list Z, len grid ≤ len row) grid.

(** The grid has as many columns in every row as it has rows. *)
Definition square (grid : list (list Z)) : Prop :=
  Forall (λ row : list Z, len row = len grid) grid.

(** [f(x, y)] as a total function, [0] outside the grid. *)
Definition alt (grid : list (list Z)) (x y : Z) : Z :=
  default 0 (row ← grid !! Z.to_nat x; row !! Z.to_nat y).

(** The values of [_x_shift], [_y_shift] and [_angle_shift] where their
    subscripts are in range. *)
Definition x_shift (grid : list (list Z)) (x : Z) : Z :=
  alt grid (x + 1) 0 - alt grid x 0.

Definition y_shift (grid : list (list Z)) (y : Z) : Z :=
  alt grid 0 (y + 1) - alt grid 0 y.

Definition angle_shift (grid : list (list Z)) (x y : Z) : Z :=
  alt grid (x + 1) (y + 1) - alt grid x (y + 1)
  - alt grid (x + 1) y + alt grid x y.

(** The pairs [(x, y)] of the nested [for] of the cross-term comprehension. *)
Definition index_pairs (k : Z) : list (Z * Z) :=
  x ← range 0 k; (λ y, (x, y)) <$> range 0 k.

Section Writes.

Variable grid : list (list Z).
Let k := num_vars grid.

(** The items of each pass of [_get_qubo] in closed form. *)
Definition x_diag_writes : list (Z * Z * Z) :=
  (λ x, ((x, x), ENCODING_BIAS + x_shift grid x)) <$> range 1 k.
Definition x0_write : Z * Z * Z := ((0, 0), x_shift grid 0).
Definition y_diag_writes : list (Z * Z * Z) :=
  (λ y, ((k + y, k + y), ENCODING_BIAS + y_shift grid y)) <$> range 1 k.
Definition y0_write : Z * Z * Z := ((k, k), y_shift grid 0).
Definition cross_writes : list (Z * Z * Z) :=
  (λ xy : Z * Z, ((xy.1, k + xy.2), angle_shift grid xy.1 xy.2))
    <$> index_pairs k.
Definition x_adj_writes : list (Z * Z * Z) :=
  (λ x, ((x, x - 1), - ENCODING_BIAS)) <$> range 1 k.
Definition y_adj_writes : list (Z * Z * Z) :=
  (λ y, ((k + y, k + y - 1), - ENCODING_BIAS)) <$> range 1 k.

(** Every assignment [_get_qubo] makes to an entry of [Q], in the order
    of the program. *)
Definition qubo_writes : list (Z * Z * Z) :=
  x_diag_writes ++ [x0_write] ++ y_diag_writes ++ [y0_write]
    ++ cross_writes ++ x_adj_writes ++ y_adj_writes.

End Writes.

(** The three kinds of key of the QUBO over [2 * k] variables. *)
Definition diagonal_key (key : Z * Z) : Prop := key.1 = key.2.
Definition cross_key (k : Z) (key : Z * Z) : Prop := key.1 < k ≤ key.2.
Definition adjacent_key (key : Z * Z) : Prop := key.1 = key.2 + 1.

(** The number of entries of [Q] whose key satisfies [P]. *)
Definition count_keys (P : Z * Z → Prop) `{!∀ key, Decision (P key)}
    (Q : dict) : Z :=
  len (filter (λ kv : Z * Z * Z, P kv.1) (map_to_list Q)).

(** [1] when the bit is set, else [0]. *)
Definition bit (s : list Z) (i : Z) : Z := if bit_set s i then 1 else 0.

(** The energy of the telescoping coefficients alone: the x, y and angle
    shifts of the bits that are set, without the encoding bias. *)
Definition telescoping_energy (grid : list (list Z)) (s : list Z) : Z :=
  let k := num_vars grid in
  Zsum ((λ x, bit s x * x_shift grid x) <$> range 0 k)
  + Zsum ((λ y, bit s (k + y) * y_shift grid y) <$> range 0 k)
  + Zsum ((λ xy : Z * Z,
             bit s xy.1 * bit s (k + xy.2) * angle_shift grid xy.1 xy.2)
          <$> index_pairs k).

(** The number of positions [v >= 1] of the block at [lo] whose bit is set
    while the bit before it is not. *)
Definition violations (s : list Z) (lo k : Z) : Z :=
  Zsum ((λ v, bit s (lo + v) * (1 - bit s (lo + v - 1))) <$> range 1 k).

(** A sample over the 18 variables of [LANDSCAPE]: the x block is the code
    of 6, the y block has bits 6, 7 and 8 set after a zero at bit 5. *)
Definition invalid_sample : list Z :=
  [1; 1; 1; 1; 1; 1; 0; 0; 0;  0; 0; 0; 0; 0; 0; 1; 1; 1].

(** A grid of two rows and three columns. *)
Definition wide_grid : list (list Z) := [[4; 3; 2]; [3; 2; 1]].

(** ** Notions for the further properties *)

(** The block at [lo] has a one just after a zero. *)
Definition violates (s : list Z) (lo k : Z) : Prop :=
  ∃ v, 0 < v < k ∧ getitem s (lo + v) = Ok 1 ∧ getitem s (lo + (v - 1)) = Ok 0.

(** [c] is the position after the last entry of the block that is [1],
    or [0] when no entry is. *)
Definition after_last_one (s : list Z) (lo k c : Z) : Prop :=
  (c = 0 ∨ (0 < c ≤ k ∧ getitem s (lo + (c - 1)) = Ok 1)) ∧
  ∀ i, c ≤ i < k → getitem s (lo + i) ≠ Ok 1.

(** The sum of the entries of a table. *)
Definition table_total (table : dict) : Z := Zsum (map_to_list table).*2.

(** The occurrences of a sample when both axes decode, else [0]. *)
Definition accepted (grid : list (list Z)) (sample : list Z * Z) : Z :=
  match decode_sample grid sample.1 with
  | Ok (Some _) => sample.2
  | _ => 0
  end.

(** The canonical sample of a triple [(x, y, num)]. *)
Definition canonical_sample (k : Z) (c : Z * Z * Z) : list Z * Z :=
  (encode k c.1.1 c.1.2, c.2).

(** The grid cut to its first [len grid] columns. *)
Definition corner (grid : list (list Z)) : list (list Z) :=
  take (length grid) <$> grid.

(** ** Subscripts, ranges and comprehensions *)

Section PyFacts.

Context {A : Type}.
Implicit Types (l : list A) (i : Z).

Lemma getitem_nonneg l i :
  0 ≤ i →
  getitem l i = match l !! Z.to_nat i with
                | Some a => Ok a
                | None => Raise IndexError
                end.
Proof.
  intros Hi. unfold getitem.
  rewrite (bool_decide_eq_false_2 (i < 0)) by lia.
  by rewrite (bool_decide_eq_false_2 (i < 0)) by lia.
Qed.

Lemma getitem_lookup l (n : nat) a :
  l !! n = Some a → getitem l (Z.of_nat n) = Ok a.
Proof.
  intros Hl. rewrite getitem_nonneg by lia. by rewrite Nat2Z.id, Hl.
Qed.

Lemma getitem_Ok_nonneg l i a :
  0 ≤ i → getitem l i = Ok a ↔ l !! Z.to_nat i = Some a.
Proof.
  intros Hi. rewrite getitem_nonneg by done.
  destruct (l !! Z.to_nat i); naive_solver.
Qed.

Lemma getitem_app_r (l1 l2 : list A) i :
  0 ≤ i → getitem (l1 ++ l2) (len l1 + i) = getitem l2 i.
Proof.
  intros Hi. unfold len. rewrite !getitem_nonneg by lia.
  replace (Z.to_nat (Z.of_nat (length l1) + i))
    with (length l1 + Z.to_nat i)%nat by lia.
  by rewrite lookup_app_r, Nat.add_sub' by lia.
Qed.

Lemma getitem_app_l (l1 l2 : list A) i :
  0 ≤ i < len l1 → getitem (l1 ++ l2) i = getitem l1 i.
Proof.
  unfold len. intros Hi. rewrite !getitem_nonneg by lia.
  by rewrite lookup_app_l by lia.
Qed.

End PyFacts.

Lemma getitem_range lo hi i :
  0 ≤ i < hi - lo → getitem (range lo hi) i = Ok (lo + i).
Proof.
  intros Hi. rewrite getitem_nonneg by lia. unfold range.
  rewrite lookup_seqZ_lt by lia. f_equal. lia.
Qed.

Lemma enumerate_range lo hi :
  enumerate (range lo hi) = (λ v, (v, lo + v)) <$> seqZ 0 (hi - lo).
Proof.
  unfold enumerate, range, len. rewrite length_seqZ.
  destruct (decide (0 ≤ hi - lo)) as [Hk|Hk].
  - rewrite Z2Nat.id by done. unfold seqZ.
    generalize (seq 0 (Z.to_nat (hi - lo))) as ns.
    induction ns as [|n ns IH]; [done|]. cbn. rewrite IH.
    f_equal. f_equal. lia.
  - by rewrite !seqZ_nil by lia.
Qed.

Lemma mapM_Ok {A B : Type} (f : A → result B) (g : A → B) (l : list A) :
  Forall (λ a, f a = Ok (g a)) l → mapM f l = Ok (g <$> l).
Proof.
  induction 1 as [|a l Ha _ IH]; [done|]. cbn. by rewrite Ha, IH.
Qed.

(** ** The decoder on a contiguous block of variables *)

Section Decoder.

Implicit Types (s bits : list Z) (lo k a v c coord : Z) (m : nat).

Lemma parse_coord_block s lo k :
  _parse_coord s (range lo (lo + k)) = parse_loop s (block_from lo 0 k) 0.
Proof.
  unfold _parse_coord, block_from. rewrite enumerate_range.
  by replace (lo + k - lo) with k by lia.
Qed.

Lemma parse_loop_step s lo a m coord :
  parse_loop s (block_from lo a (Z.of_nat (S m))) coord =
    b ← getitem s (lo + a);
    if bool_decide (b = 1) then
      if bool_decide (a ≠ 0) then
        p ← getitem s (lo + a - 1);
        if bool_decide (p = 0) then Ok None
        else parse_loop s (block_from lo (a + 1) (Z.of_nat m)) (a + 1)
      else parse_loop s (block_from lo (a + 1) (Z.of_nat m)) (a + 1)
    else parse_loop s (block_from lo (a + 1) (Z.of_nat m)) coord.
Proof.
  unfold block_from. rewrite seqZ_cons by lia.
  replace (Z.pred (Z.of_nat (S m))) with (Z.of_nat m) by lia.
  by replace (Z.succ a) with (a + 1) by lia.
Qed.

(** Two samples that agree on the block are decoded alike. *)
Lemma parse_loop_agree s1 s2 lo m : ∀ a coord,
  0 ≤ a →
  (∀ i, 0 ≤ i < a + Z.of_nat m → getitem s1 (lo + i) = getitem s2 (lo + i)) →
  parse_loop s1 (block_from lo a (Z.of_nat m)) coord =
  parse_loop s2 (block_from lo a (Z.of_nat m)) coord.
Proof.
  induction m as [|m IH]; intros a coord Ha Hagree; [done|].
  rewrite !parse_loop_step.
  rewrite (Hagree a) by lia.
  destruct (getitem s2 (lo + a)) as [b|e]; [cbn|done].
  assert (Hnext : ∀ coord',
    parse_loop s1 (block_from lo (a + 1) (Z.of_nat m)) coord' =
    parse_loop s2 (block_from lo (a + 1) (Z.of_nat m)) coord').
  { intros coord'. apply IH; [lia|]. intros i Hi. apply Hagree. lia. }
  repeat case_bool_decide; auto.
  replace (lo + a - 1) with (lo + (a - 1)) by lia.
  rewrite (Hagree (a - 1)) by lia.
  destruct (getitem s2 (lo + (a - 1))) as [p|e]; [cbn|done].
  case_bool_decide; auto.
Qed.

Lemma parse_loop_prefix s lo k c m : ∀ a,
  0 ≤ a → a + Z.of_nat m = k → 0 ≤ c ≤ k →
  encodes s lo k c →
  parse_loop s (block_from lo a (Z.of_nat m)) (a `min` c) = Ok (Some c).
Proof.
  induction m as [|m IH]; intros a Ha Hk Hc Henc.
  - unfold block_from. rewrite seqZ_nil by done. cbn. do 2 f_equal. lia.
  - rewrite parse_loop_step, (Henc a) by lia. cbn.
    destruct (decide (a < c)) as [Hlt|Hge].
    + rewrite (bool_decide_eq_true_2 (a < c)) by done. cbn.
      rewrite (bool_decide_eq_true_2 (1 = 1)) by done.
      specialize (IH (a + 1)).
      replace ((a + 1) `min` c) with (a + 1) in IH by lia.
      case_bool_decide as Ha0; [|apply IH; lia || done].
      replace (lo + a - 1) with (lo + (a - 1)) by lia.
      rewrite (Henc (a - 1)) by lia.
      rewrite (bool_decide_eq_true_2 (a - 1 < c)) by lia. cbn.
      rewrite (bool_decide_eq_false_2 (1 = 0)) by done.
      apply IH; lia || done.
    + rewrite (bool_decide_eq_false_2 (a < c)) by done. cbn.
      rewrite (bool_decide_eq_false_2 (0 = 1)) by done.
      replace (a `min` c) with ((a + 1) `min` c) by lia.
      apply IH; lia || done.
Qed.

Lemma parse_loop_violation s lo v m : ∀ a coord,
  0 < v → 0 ≤ a ≤ v → v < a + Z.of_nat m →
  in_range s lo (a + Z.of_nat m) →
  getitem s (lo + v) = Ok 1 →
  getitem s (lo + (v - 1)) = Ok 0 →
  parse_loop s (block_from lo a (Z.of_nat m)) coord = Ok None.
Proof.
  induction m as [|m IH]; intros a coord Hv Ha Hm Hin H1 H0; [lia|].
  assert (Hnext : ∀ coord',
    a ≠ v →
    parse_loop s (block_from lo (a + 1) (Z.of_nat m)) coord' = Ok None).
  { intros coord' Hne. apply IH; try done; try lia.
    intros i Hi. apply Hin. lia. }
  rewrite parse_loop_step.
  destruct (decide (a = v)) as [->|Hne].
  - rewrite H1. cbn. rewrite (bool_decide_eq_true_2 (1 = 1)) by done.
    rewrite (bool_decide_eq_true_2 (v ≠ 0)) by lia.
    replace (lo + v - 1) with (lo + (v - 1)) by lia. by rewrite H0.
  - destruct (Hin a) as [b ->]; [lia|]. cbn.
    repeat case_bool_decide; auto.
    replace (lo + a - 1) with (lo + (a - 1)) by lia.
    destruct (Hin (a - 1)) as [p ->]; [lia|]. cbn.
    case_bool_decide; auto.
Qed.

Lemma parse_loop_outcome s lo m : ∀ a coord,
  0 ≤ coord ≤ a →
  in_range s lo (a + Z.of_nat m) →
  parse_loop s (block_from lo a (Z.of_nat m)) coord = Ok None ∨
  ∃ c, 0 ≤ c ≤ a + Z.of_nat m ∧
       parse_loop s (block_from lo a (Z.of_nat m)) coord = Ok (Some c).
Proof.
  induction m as [|m IH]; intros a coord Hc Hin.
  - right. exists coord. split; [lia|].
    unfold block_from. by rewrite seqZ_nil.
  - assert (Hnext : ∀ coord', 0 ≤ coord' ≤ a + 1 →
      parse_loop s (block_from lo (a + 1) (Z.of_nat m)) coord' = Ok None ∨
      ∃ c, 0 ≤ c ≤ a + Z.of_nat (S m) ∧
        parse_loop s (block_from lo (a + 1) (Z.of_nat m)) coord'
        = Ok (Some c)).
    { intros coord' Hc'.
      destruct (IH (a + 1) coord') as [?|(c & ? & ?)]; [done| |by left|].
      - intros i Hi. apply Hin. lia.
      - right. exists c. split; [lia|done]. }
    rewrite parse_loop_step.
    destruct (Hin a) as [b ->]; [lia|]. cbn.
    repeat case_bool_decide; try (apply Hnext; lia).
    replace (lo + a - 1) with (lo + (a - 1)) by lia.
    destruct (Hin (a - 1)) as [p ->]; [lia|]. cbn.
    case_bool_decide; [by left|apply Hnext; lia].
Qed.

End Decoder.

(** ** Unary codes and axis blocks inside a sample *)

Lemma unary_length k c : 0 ≤ c ≤ k → len (unary k c) = k.
Proof.
  intros Hc. unfold len, unary. rewrite length_app, !length_replicate. lia.
Qed.

Lemma unary_lookup k c (i : nat) :
  0 ≤ c ≤ k → Z.of_nat i < k →
  unary k c !! i = Some (if bool_decide (Z.of_nat i < c) then 1 else 0).
Proof.
  intros Hc Hi. unfold unary. case_bool_decide.
  - rewrite lookup_app_l by (rewrite length_replicate; lia).
    apply lookup_replicate_2. lia.
  - rewrite lookup_app_r by (rewrite length_replicate; lia).
    apply lookup_replicate_2. rewrite length_replicate. lia.
Qed.

(** The block of a sample [pre ++ bits ++ post] that holds [bits]. *)
Lemma getitem_block (pre bits post : list Z) i :
  0 ≤ i < len bits →
  getitem (pre ++ bits ++ post) (len pre + i) = getitem bits i.
Proof.
  intros Hi. rewrite getitem_app_r by lia. by apply getitem_app_l.
Qed.

Lemma getitem_block_lookup (pre bits post : list Z) (i : nat) b :
  bits !! i = Some b →
  getitem (pre ++ bits ++ post) (len pre + Z.of_nat i) = Ok b.
Proof.
  intros Hb. rewrite getitem_block.
  - by apply getitem_lookup.
  - apply lookup_lt_Some in Hb. unfold len. lia.
Qed.

Lemma in_range_block (pre bits post : list Z) :
  in_range (pre ++ bits ++ post) (len pre) (len bits).
Proof.
  intros i Hi. rewrite getitem_block by done.
  rewrite getitem_nonneg by lia.
  destruct (lookup_lt_is_Some_2 bits (Z.to_nat i)) as [b ->]; [|by eauto].
  unfold len in Hi. lia.
Qed.

Lemma encodes_block (pre post : list Z) k c :
  0 ≤ c ≤ k → encodes (pre ++ unary k c ++ post) (len pre) k c.
Proof.
  intros Hc i Hi.
  rewrite getitem_block by (rewrite unary_length; lia).
  rewrite getitem_nonneg by lia.
  rewrite unary_lookup by lia. by rewrite Z2Nat.id by lia.
Qed.

(** A vector of bits is a unary code, or has a one just after a zero. *)
Lemma unary_or_violation (bits : list Z) :
  Forall (λ b, b = 0 ∨ b = 1) bits →
  (∃ c, 0 ≤ c ≤ len bits ∧ bits = unary (len bits) c) ∨
  (∃ v : nat, (0 < v)%nat ∧ bits !! v = Some 1 ∧ bits !! (v - 1)%nat = Some 0).
Proof.
  induction 1 as [|b bits Hb _ IH].
  - left. exists 0. by split.
  - destruct IH as [(c & Hc & Heq)|(v & Hv & H1 & H0)].
    + destruct Hb as [->| ->].
      * destruct (decide (c = 0)) as [->|Hne].
        -- left. exists 0. split; [unfold len; cbn; lia|].
           rewrite Heq at 1. unfold unary, len. cbn [length].
           rewrite Nat2Z.inj_succ. cbn [Z.to_nat replicate app].
           replace (Z.to_nat (Z.succ (Z.of_nat (length bits)) - 0))
             with (S (length bits)) by lia.
           replace (Z.to_nat (Z.of_nat (length bits) - 0))
             with (length bits) by lia.
           done.
        -- right. exists 1%nat. split; [lia|]. split; [|done]. cbn.
           rewrite Heq. rewrite (unary_lookup _ _ 0) by lia.
           by rewrite bool_decide_eq_true_2 by lia.
      * left. exists (c + 1). unfold len in *. cbn [length].
        split; [lia|]. rewrite Heq at 1. unfold unary, len.
        replace (Z.to_nat (c + 1)) with (S (Z.to_nat c)) by lia.
        cbn [length]. rewrite Nat2Z.inj_succ.
        by replace (Z.succ (Z.of_nat (length bits)) - (c + 1))
          with (Z.of_nat (length bits) - c) by lia.
    + right. exists (S v). split; [lia|]. split; [done|].
      destruct v; [lia|]. cbn in *. by rewrite Nat.sub_0_r in H0.
Qed.

(** ** Sums *)

Lemma Zsum_cons a l : Zsum (a :: l) = a + Zsum l.
Proof. done. Qed.

Lemma Zsum_app l1 l2 : Zsum (l1 ++ l2) = Zsum l1 + Zsum l2.
Proof.
  induction l1 as [|a l1 IH]; [done|]. cbn [app]. rewrite !Zsum_cons, IH. lia.
Qed.

Lemma Zsum_permutation l1 l2 : l1 ≡ₚ l2 → Zsum l1 = Zsum l2.
Proof.
  induction 1 as [|a l1 l2 _ IH|a b l|l1 l2 l3 _ IH1 _ IH2];
    rewrite ?Zsum_cons; lia.
Qed.

Lemma Zsum_nonneg l : Forall (λ a, 0 ≤ a) l → 0 ≤ Zsum l.
Proof. induction 1; rewrite ?Zsum_cons; [done|lia]. Qed.

Lemma Zsum_zero l : Forall (λ a, a = 0) l → Zsum l = 0.
Proof. induction 1; rewrite ?Zsum_cons; [done|lia]. Qed.

(** ** The result table *)

Implicit Types (grid : list (list Z)) (table : dict).

Local Arguments _interpret_sample : simpl never.

Lemma bind_assoc {A B C : Type} (c : result A) (f : A → result B)
    (g : B → result C) :
  (c ≫= f) ≫= g = c ≫= (λ a, f a ≫= g).
Proof. by destruct c. Qed.

Lemma foldM_app {A S : Type} (f : S → A → result S) (l1 l2 : list A) : ∀ s,
  foldM f s (l1 ++ l2) = foldM f s l1 ≫= λ s', foldM f s' l2.
Proof.
  induction l1 as [|a l1 IH]; intros s; [done|]. cbn.
  destruct (f s a); [apply IH|done].
Qed.

(** A loop whose steps commute does not depend on the order of the list. *)
Lemma foldM_permutation {A S : Type} (f : S → A → result S) :
  (∀ s a b, f s a ≫= (λ s', f s' b) = f s b ≫= (λ s', f s' a)) →
  ∀ l l', l ≡ₚ l' → ∀ s, foldM f s l = foldM f s l'.
Proof.
  intros Hcomm l l'. induction 1 as [|a l l' _ IH|a b l|l1 l2 l3 _ IH1 _ IH2];
    intros s.
  - done.
  - cbn. destruct (f s a); [apply IH|done].
  - change (f s b ≫= (λ s1, f s1 a ≫= (λ s2, foldM f s2 l)) =
            f s a ≫= (λ s1, f s1 b ≫= (λ s2, foldM f s2 l))).
    by rewrite <- !bind_assoc, Hcomm.
  - by rewrite IH1.
Qed.

Lemma table_lookup_default (table : dict) x y :
  table_lookup table x y = default 0 (table !! (x, y)).
Proof.
  unfold table_lookup, defaultdict_getitem. by destruct (table !! (x, y)).
Qed.

Lemma interpret_sample_decode grid (table : dict) s num :
  _interpret_sample grid table (s, num) =
    c ← decode_sample grid s;
    Ok (match c with
        | Some k => credit table k num
        | None => table
        end).
Proof.
  unfold _interpret_sample, decode_sample.
  destruct (_parse_coord s (x_vars grid)) as [[x|]|e]; [cbn|done..].
  destruct (_parse_coord s (y_vars grid)) as [[y|]|e]; [cbn|done..].
  unfold credit, defaultdict_getitem.
  destruct (table !! (x, y)); [done|]. cbn. by rewrite insert_insert_eq.
Qed.

Lemma credit_comm (table : dict) k1 n1 k2 n2 :
  credit (credit table k1 n1) k2 n2 = credit (credit table k2 n2) k1 n1.
Proof.
  unfold credit. destruct (decide (k1 = k2)) as [->|Hne].
  - rewrite !lookup_insert_eq, !insert_insert_eq. cbn. f_equal. lia.
  - rewrite !lookup_insert_ne by done. by apply insert_insert_ne.
Qed.

Lemma interpret_sample_comm grid (table : dict) a b :
  _interpret_sample grid table a ≫= (λ t, _interpret_sample grid t b) =
  _interpret_sample grid table b ≫= (λ t, _interpret_sample grid t a).
Proof.
  destruct a as [sa na], b as [sb nb].
  rewrite (interpret_sample_decode _ table sa),
    (interpret_sample_decode _ table sb).
  destruct (decode_sample grid sa) as [ca|[]] eqn:Ha,
    (decode_sample grid sb) as [cb|[]] eqn:Hb; cbn;
    rewrite ?interpret_sample_decode, ?Ha, ?Hb; cbn; try done.
  destruct ca, cb; try done. by rewrite credit_comm.
Qed.

Lemma lookup_credit (table : dict) k k' num :
  default 0 (credit table k' num !! k) =
  default 0 (table !! k) + (if bool_decide (k' = k) then num else 0).
Proof.
  unfold credit. case_bool_decide as Hk.
  - subst. by rewrite lookup_insert_eq.
  - rewrite lookup_insert_ne by done. lia.
Qed.

(** The entry of [k] after the loop: what it held, plus the occurrences of
    the samples decoded to [k]. *)
Lemma interpret_samples_lookup grid samples : ∀ (table table' : dict) k,
  foldM (_interpret_sample grid) table samples = Ok table' →
  default 0 (table' !! k) =
  default 0 (table !! k) + Zsum (credited grid k <$> samples).
Proof.
  induction samples as [|[s num] samples IH]; intros table table' k Hrun.
  - cbn in *. injection Hrun as <-. lia.
  - cbn in Hrun. rewrite interpret_sample_decode in Hrun.
    rewrite fmap_cons, Zsum_cons. unfold credited at 1. cbn [fst snd].
    destruct (decode_sample grid s) as [[k'|]|e]; cbn in Hrun; [| |done].
    + rewrite (IH _ _ k Hrun), lookup_credit. lia.
    + rewrite (IH _ _ k Hrun). lia.
Qed.

Lemma interpret_samples_total grid samples : ∀ table : dict,
  Forall (λ sample, ∃ c, decode_sample grid sample.1 = Ok c) samples →
  ∃ table', foldM (_interpret_sample grid) table samples = Ok table'.
Proof.
  induction samples as [|[s num] samples IH]; intros table Hall.
  - by eexists.
  - apply Forall_cons in Hall as [[c Hc] Hall]. cbn.
    rewrite interpret_sample_decode. cbn in Hc. rewrite Hc. cbn.
    by apply IH.
Qed.

(** ** The coefficients on a well-formed grid *)

Lemma elem_of_index_pairs (k : Z) (xy : Z * Z) :
  xy ∈ index_pairs k ↔ 0 ≤ xy.1 < k ∧ 0 ≤ xy.2 < k.
Proof.
  unfold index_pairs, range. destruct xy as [x y]. cbn. split.
  - intros (x' & Hy & Hx)%list_elem_of_bind.
    apply list_elem_of_fmap in Hy as (y' & [= -> ->] & Hy).
    apply elem_of_seqZ in Hx, Hy. lia.
  - intros [Hx Hy]. apply list_elem_of_bind. exists x.
    rewrite list_elem_of_fmap, elem_of_seqZ. split; [|lia].
    exists y. rewrite elem_of_seqZ. split; [done|lia].
Qed.


Section WellFormed.

Variable grid : list (list Z).
Hypothesis Hwf : well_formed grid.

Let k := num_vars grid.

Lemma num_vars_pos : 1 ≤ k.
Proof. destruct Hwf. unfold k, num_vars. lia. Qed.

Lemma altitude_alt x y :
  0 ≤ x ≤ k → 0 ≤ y ≤ k → altitude grid x y = Ok (alt grid x y).
Proof.
  destruct Hwf as [_ Hrows]. unfold k, num_vars. intros Hx Hy.
  unfold altitude, alt. rewrite getitem_nonneg by lia.
  destruct (lookup_lt_is_Some_2 grid (Z.to_nat x)) as [row Hrow].
  { unfold len in Hx. lia. }
  rewrite Hrow. cbn.
  rewrite Forall_lookup in Hrows. specialize (Hrows _ _ Hrow).
  rewrite getitem_nonneg by lia.
  destruct (lookup_lt_is_Some_2 row (Z.to_nat y)) as [v ->]; [|done].
  unfold len in *. lia.
Qed.

Lemma x_shift_Ok x : 0 ≤ x < k → _x_shift grid x = Ok (x_shift grid x).
Proof.
  pose proof num_vars_pos.
  intros Hx. unfold _x_shift. by rewrite !altitude_alt by lia.
Qed.

Lemma y_shift_Ok y : 0 ≤ y < k → _y_shift grid y = Ok (y_shift grid y).
Proof.
  pose proof num_vars_pos.
  intros Hy. unfold _y_shift. by rewrite !altitude_alt by lia.
Qed.

Lemma angle_shift_Ok x y :
  0 ≤ x < k → 0 ≤ y < k →
  _angle_shift grid x y = Ok (angle_shift grid x y).
Proof.
  intros Hx Hy. unfold _angle_shift. by rewrite !altitude_alt by lia.
Qed.

Lemma x_vars_getitem x : 0 ≤ x < k → getitem (x_vars grid) x = Ok x.
Proof.
  intros Hx. unfold x_vars. by rewrite getitem_range by (fold k; lia).
Qed.

Lemma y_vars_getitem y : 0 ≤ y < k → getitem (y_vars grid) y = Ok (k + y).
Proof.
  intros Hy. unfold y_vars. by rewrite getitem_range by (fold k; lia).
Qed.

Lemma x_diag_items_Ok : x_diag_items grid = Ok (x_diag_writes grid).
Proof.
  apply mapM_Ok, Forall_seqZ. intros x Hx. fold k in Hx.
  by rewrite x_vars_getitem, x_shift_Ok by lia.
Qed.

Lemma y_diag_items_Ok : y_diag_items grid = Ok (y_diag_writes grid).
Proof.
  apply mapM_Ok, Forall_seqZ. intros y Hy. fold k in Hy.
  by rewrite y_vars_getitem, y_shift_Ok by lia.
Qed.

Lemma cross_items_Ok : cross_items grid = Ok (cross_writes grid).
Proof.
  apply mapM_Ok, Forall_forall. intros xy Hxy.
  apply elem_of_index_pairs in Hxy as [Hx Hy].
  by rewrite x_vars_getitem, y_vars_getitem, angle_shift_Ok by lia.
Qed.

Lemma x_adj_items_Ok : x_adj_items grid = Ok (x_adj_writes grid).
Proof.
  apply mapM_Ok, Forall_seqZ. intros x Hx. fold k in Hx.
  by rewrite !x_vars_getitem by lia.
Qed.

Lemma y_adj_items_Ok : y_adj_items grid = Ok (y_adj_writes grid).
Proof.
  apply mapM_Ok, Forall_seqZ. intros y Hy. fold k in Hy.
  rewrite !y_vars_getitem by lia. cbn. do 3 f_equal. lia.
Qed.

End WellFormed.

(** ** Dictionaries built by comprehension and [update] *)

Lemma dict_of_items_snoc (l : list (Z * Z * Z)) kv :
  dict_of_items (l ++ [kv]) = <[kv.1 := kv.2]> (dict_of_items l).
Proof. unfold dict_of_items. by rewrite foldl_snoc. Qed.

Lemma dict_of_items_app (l1 l2 : list (Z * Z * Z)) :
  dict_of_items (l1 ++ l2) = update (dict_of_items l1) (dict_of_items l2).
Proof.
  unfold update. induction l2 as [|kv l2 IH] using rev_ind.
  - rewrite app_nil_r. unfold dict_of_items at 2. cbn.
    by rewrite (left_id_L ∅ (∪)).
  - rewrite app_assoc, !dict_of_items_snoc, IH. by rewrite insert_union_l.
Qed.

Lemma update_singleton (d : dict) kv :
  update d (dict_of_items [kv]) = <[kv.1 := kv.2]> d.
Proof.
  unfold update, dict_of_items. cbn.
  by rewrite <- insert_union_l, (left_id_L ∅ (∪)).
Qed.

Lemma dict_of_items_list_to_map (l : list (Z * Z * Z)) :
  dict_of_items l = list_to_map (rev l).
Proof.
  induction l as [|[key v] l IH] using rev_ind; [done|].
  by rewrite dict_of_items_snoc, rev_unit, list_to_map_cons, IH.
Qed.

(** When no key is written twice, the entries of the dictionary are the
    items written. *)
Lemma dict_of_items_entries (l : list (Z * Z * Z)) :
  NoDup l.*1 → map_to_list (dict_of_items l) ≡ₚ l.
Proof.
  intros Hnd. rewrite dict_of_items_list_to_map, rev_alt.
  change (rev_append l []) with (reverse l).
  rewrite map_to_list_to_map.
  - apply reverse_Permutation.
  - by rewrite fmap_reverse, reverse_Permutation.
Qed.

Lemma get_qubo_writes grid :
  well_formed grid → _get_qubo grid = Ok (dict_of_items (qubo_writes grid)).
Proof.
  intros Hwf. pose proof (num_vars_pos grid Hwf) as Hk.
  unfold _get_qubo.
  rewrite x_diag_items_Ok, y_diag_items_Ok, cross_items_Ok,
    x_adj_items_Ok, y_adj_items_Ok by done.
  rewrite x_shift_Ok, y_shift_Ok, x_vars_getitem, y_vars_getitem by (done || lia).
  cbn. f_equal. unfold qubo_writes.
  rewrite !app_assoc.
  rewrite !dict_of_items_app, !update_singleton.
  unfold x0_write, y0_write. cbn. by rewrite Z.add_0_r.
Qed.

(** ** No entry of the QUBO is written twice *)

#[local] Set Warnings "-clear-no-such-hyp".

Lemma index_pairs_NoDup k : NoDup (index_pairs k).
Proof.
  unfold index_pairs, range. apply NoDup_bind.
  - intros x1 x2 [x y] _ _ (? & [= -> ->] & _)%list_elem_of_fmap
      (? & [= -> _] & _)%list_elem_of_fmap. done.
  - intros x _. apply NoDup_fmap_2_strong; [|apply NoDup_seqZ].
    by intros y1 y2 _ _ [= ->].
  - apply NoDup_seqZ.
Qed.

Lemma qubo_writes_keys grid :
  let k := num_vars grid in
  (qubo_writes grid).*1 =
    ((λ x, (x, x)) <$> range 1 k) ++ [(0, 0)]
    ++ ((λ y, (k + y, k + y)) <$> range 1 k) ++ [(k, k)]
    ++ ((λ xy : Z * Z, (xy.1, k + xy.2)) <$> index_pairs k)
    ++ ((λ x, (x, x - 1)) <$> range 1 k)
    ++ ((λ y, (k + y, k + y - 1)) <$> range 1 k).
Proof.
  unfold qubo_writes, x_diag_writes, y_diag_writes, cross_writes,
    x_adj_writes, y_adj_writes.
  by rewrite !fmap_app, <- !list_fmap_compose.
Qed.

Lemma qubo_writes_NoDup grid :
  1 ≤ num_vars grid → NoDup (qubo_writes grid).*1.
Proof.
  intros Hk. rewrite qubo_writes_keys. cbv zeta.
  generalize dependent (num_vars grid). intros k Hk.
  repeat (apply NoDup_app; split_and!).
  all: try (apply NoDup_fmap_2_strong;
            [|apply NoDup_seqZ || apply index_pairs_NoDup]).
  all: try (apply NoDup_singleton).
  all: try (intros key; unfold range, index_pairs; set_unfold;
            naive_solver lia).
  all: try (intros ?? _ _ [=]; lia).
  all: try (intros [??] [??] _ _ [=]; f_equal; lia).
Qed.

(** ** The entries of the QUBO, by kind *)

Section Filter.

Context {A B : Type} (P : B → Prop) `{!∀ b, Decision (P b)}.

Lemma filter_fmap_all (f : A → B) (l : list A) :
  (∀ a, a ∈ l → P (f a)) → filter P (f <$> l) = f <$> l.
Proof.
  induction l as [|a l IH]; intros Hall; [done|]. rewrite fmap_cons.
  rewrite filter_cons_True by (apply Hall; left).
  rewrite IH; [done|]. intros ??. apply Hall. by right.
Qed.

Lemma filter_fmap_none (f : A → B) (l : list A) :
  (∀ a, a ∈ l → ¬ P (f a)) → filter P (f <$> l) = [].
Proof.
  induction l as [|a l IH]; intros Hall; [done|]. rewrite fmap_cons.
  rewrite filter_cons_False by (apply Hall; left).
  apply IH. intros ??. apply Hall. by right.
Qed.

End Filter.

Lemma index_pairs_length k : 0 ≤ k → len (index_pairs k) = k * k.
Proof.
  intros Hk. unfold index_pairs, range, len.
  assert (Hlen : ∀ l : list Z,
    length (l ≫= λ x, (λ y, (x, y)) <$> seqZ 0 (k - 0))
    = (length l * Z.to_nat k)%nat).
  { induction l as [|x l IH]; [done|]. cbn.
    rewrite length_app, length_fmap, length_seqZ, IH. lia. }
  rewrite Hlen, length_seqZ. lia.
Qed.

Lemma range_length lo hi : lo ≤ hi → len (range lo hi) = hi - lo.
Proof. intros. unfold len, range. rewrite length_seqZ. lia. Qed.

Local Ltac key_kind :=
  let a := fresh "a" in
  let Ha := fresh "Ha" in
  intros a Ha; unfold range in Ha;
  first [apply elem_of_seqZ in Ha | apply elem_of_index_pairs in Ha];
  unfold diagonal_key, cross_key, adjacent_key; cbn; lia.

Local Ltac count_writes :=
  unfold count_keys, qubo_writes, x_diag_writes, y_diag_writes, cross_writes,
    x_adj_writes, y_adj_writes, x0_write, y0_write;
  repeat first
    [ rewrite filter_app
    | rewrite filter_nil
    | rewrite filter_fmap_all by key_kind
    | rewrite filter_fmap_none by key_kind
    | rewrite filter_cons_True
        by (unfold diagonal_key, cross_key, adjacent_key; cbn; lia)
    | rewrite filter_cons_False
        by (unfold diagonal_key, cross_key, adjacent_key; cbn; lia) ].

Lemma qubo_writes_count grid :
  let k := num_vars grid in
  1 ≤ k →
  len (filter (λ kv : Z * Z * Z, diagonal_key kv.1) (qubo_writes grid)) = 2 * k ∧
  len (filter (λ kv : Z * Z * Z, cross_key k kv.1) (qubo_writes grid)) = k * k ∧
  len (filter (λ kv : Z * Z * Z, adjacent_key kv.1) (qubo_writes grid))
    = 2 * (k - 1) ∧
  len (qubo_writes grid) = 2 * k + k * k + 2 * (k - 1).
Proof.
  intros k Hk. subst k.
  pose proof (index_pairs_length (num_vars grid)) as Hpairs.
  pose proof (range_length 1 (num_vars grid)) as Hrange.
  unfold len in *. split_and!.
  - count_writes. cbn [app]. rewrite ?app_nil_r.
    rewrite length_app. cbn [length]. rewrite length_app, !length_fmap.
    cbn [length]. lia.
  - count_writes. cbn [app]. rewrite ?app_nil_r, length_fmap. lia.
  - count_writes. cbn [app]. rewrite ?app_nil_r, length_app, !length_fmap.
    lia.
  - unfold qubo_writes, x_diag_writes, y_diag_writes, cross_writes,
      x_adj_writes, y_adj_writes.
    rewrite !length_app, !length_fmap. cbn [length]. lia.
Qed.

(** ** The energy of a sample *)

Section Sums.

Context {A : Type}.
Implicit Types (f g : A → Z) (l : list A).

Lemma Zsum_fmap_ext f g l :
  (∀ a, a ∈ l → f a = g a) → Zsum (f <$> l) = Zsum (g <$> l).
Proof.
  induction l as [|a l IH]; intros Hfg; [done|].
  rewrite !fmap_cons, !Zsum_cons, (Hfg a) by (by left).
  rewrite IH; [done|]. intros ??. apply Hfg. by right.
Qed.

Lemma Zsum_fmap_add f g l :
  Zsum ((λ a, f a + g a) <$> l) = Zsum (f <$> l) + Zsum (g <$> l).
Proof.
  induction l as [|a l IH]; [done|]. rewrite !fmap_cons, !Zsum_cons, IH. lia.
Qed.

Lemma Zsum_fmap_scale (c : Z) f l :
  Zsum ((λ a, c * f a) <$> l) = c * Zsum (f <$> l).
Proof.
  induction l as [|a l IH]; [cbn; lia|].
  rewrite !fmap_cons, !Zsum_cons, IH. lia.
Qed.

Lemma Zsum_bind {B : Type} (h : A → list B) (g : B → Z) l :
  Zsum (g <$> (l ≫= h)) = Zsum ((λ a, Zsum (g <$> h a)) <$> l).
Proof.
  induction l as [|a l IH]; [done|]. cbn.
  by rewrite fmap_app, Zsum_app, IH.
Qed.

End Sums.

Lemma range_cons lo hi : lo < hi → range lo hi = lo :: range (lo + 1) hi.
Proof.
  intros. unfold range. rewrite seqZ_cons by lia. do 2 f_equal; lia.
Qed.

Lemma bit_cases s i : bit s i = 0 ∨ bit s i = 1.
Proof. unfold bit. destruct (bit_set s i); auto. Qed.

Lemma qubo_term_bit s key c :
  qubo_term s (key, c) = bit s key.1 * bit s key.2 * c.
Proof.
  unfold qubo_term, bit. cbn.
  destruct (bit_set s key.1), (bit_set s key.2); cbn; lia.
Qed.

(** The diagonal and adjacent terms of one axis: the shifts of the bits
    that are set, and the bias once for every violation. *)
Lemma axis_energy s lo (sh : Z → Z) (l : list Z) :
  Zsum ((λ v, qubo_term s ((lo + v, lo + v), ENCODING_BIAS + sh v)) <$> l)
  + Zsum ((λ v, qubo_term s ((lo + v, lo + v - 1), - ENCODING_BIAS)) <$> l)
  = Zsum ((λ v, bit s (lo + v) * sh v) <$> l)
    + ENCODING_BIAS
      * Zsum ((λ v, bit s (lo + v) * (1 - bit s (lo + v - 1))) <$> l).
Proof.
  induction l as [|v l IH]; [done|].
  rewrite !fmap_cons, !Zsum_cons, !qubo_term_bit. cbn [fst snd].
  destruct (bit_cases s (lo + v)) as [-> | ->],
    (bit_cases s (lo + v - 1)) as [-> | ->]; lia.
Qed.

Lemma writes_energy grid s :
  let k := num_vars grid in
  1 ≤ k →
  Zsum (qubo_term s <$> qubo_writes grid) =
    telescoping_energy grid s
    + ENCODING_BIAS * (violations s 0 k + violations s k k).
Proof.
  intros k Hk. unfold qubo_writes, telescoping_energy, violations.
  fold k. rewrite (range_cons 0 k) by lia.
  rewrite !fmap_app, !Zsum_app, !fmap_cons, !Zsum_cons.
  unfold x_diag_writes, y_diag_writes, cross_writes, x_adj_writes,
    y_adj_writes, x0_write, y0_write.
  fold k. rewrite <- !list_fmap_compose.
  assert (Hx :
    Zsum (qubo_term s ∘ (λ x, (x, x, ENCODING_BIAS + x_shift grid x))
          <$> range 1 k)
    + Zsum (qubo_term s ∘ (λ x, (x, x - 1, - ENCODING_BIAS)) <$> range 1 k)
    = Zsum ((λ x, bit s x * x_shift grid x) <$> range 1 k)
      + ENCODING_BIAS
        * Zsum ((λ v, bit s (0 + v) * (1 - bit s (0 + v - 1))) <$> range 1 k))
    by exact (axis_energy s 0 (x_shift grid) (range 1 k)).
  assert (Hy :
    Zsum (qubo_term s ∘ (λ y, (k + y, k + y, ENCODING_BIAS + y_shift grid y))
          <$> range 1 k)
    + Zsum (qubo_term s ∘ (λ y, (k + y, k + y - 1, - ENCODING_BIAS))
            <$> range 1 k)
    = Zsum ((λ y, bit s (k + y) * y_shift grid y) <$> range 1 k)
      + ENCODING_BIAS
        * Zsum ((λ v, bit s (k + v) * (1 - bit s (k + v - 1))) <$> range 1 k))
    by exact (axis_energy s k (y_shift grid) (range 1 k)).
  assert (Hc : Zsum (qubo_term s ∘ (λ xy : Z * Z,
                   (xy.1, k + xy.2, angle_shift grid xy.1 xy.2))
                 <$> index_pairs k)
    = Zsum ((λ xy : Z * Z,
               bit s xy.1 * bit s (k + xy.2) * angle_shift grid xy.1 xy.2)
            <$> index_pairs k)).
  { apply Zsum_fmap_ext. intros xy _. cbn. by rewrite qubo_term_bit. }
  rewrite Hc. cbn [fmap list_fmap Zsum foldr].
  rewrite !qubo_term_bit. cbn [fst snd]. rewrite !Z.add_0_r.
  change (0 + 1) with 1.
  destruct (bit_cases s 0) as [-> | ->], (bit_cases s k) as [-> | ->]; lia.
Qed.

(** ** The energy of a canonical sample telescopes *)

Lemma bit_encodes s lo k c i :
  encodes s lo k c → 0 ≤ i < k →
  bit s (lo + i) = if bool_decide (i < c) then 1 else 0.
Proof.
  intros Henc Hi. unfold bit, bit_set. rewrite (Henc i Hi).
  by destruct (bool_decide (i < c)).
Qed.

Lemma encodes_encode_x k x y :
  0 ≤ x ≤ k → encodes (encode k x y) 0 k x.
Proof. intros Hx. exact (encodes_block [] (unary k y) k x Hx). Qed.

Lemma encodes_encode_y k x y :
  0 ≤ x ≤ k → 0 ≤ y ≤ k → encodes (encode k x y) k k y.
Proof.
  intros Hx Hy. pose proof (encodes_block (unary k x) [] k y Hy) as Henc.
  by rewrite app_nil_r, unary_length in Henc.
Qed.

Lemma bit_encode_x k x y i :
  0 ≤ x ≤ k → 0 ≤ i < k →
  bit (encode k x y) i = if bool_decide (i < x) then 1 else 0.
Proof.
  intros Hx Hi. exact (bit_encodes _ 0 k x i (encodes_encode_x k x y Hx) Hi).
Qed.

Lemma bit_encode_y k x y i :
  0 ≤ x ≤ k → 0 ≤ y ≤ k → 0 ≤ i < k →
  bit (encode k x y) (k + i) = if bool_decide (i < y) then 1 else 0.
Proof.
  intros Hx Hy Hi.
  exact (bit_encodes _ k k y i (encodes_encode_y k x y Hx Hy) Hi).
Qed.

Lemma violations_encodes s lo k c : encodes s lo k c → violations s lo k = 0.
Proof.
  intros Henc. unfold violations. apply Zsum_zero, Forall_fmap, Forall_seqZ.
  intros v Hv. cbn.
  replace (lo + v - 1) with (lo + (v - 1)) by lia.
  rewrite !(bit_encodes s lo k c) by (done || lia).
  repeat case_bool_decide; lia.
Qed.

(** A sum of differences over the indices below [x]. *)
Lemma Zsum_telescope (g : Z → Z) (x : Z) (n : nat) :
  0 ≤ x →
  Zsum ((λ i, (if bool_decide (i < x) then 1 else 0) * (g (i + 1) - g i))
        <$> seqZ 0 (Z.of_nat n))
  = g (x `min` Z.of_nat n) - g 0.
Proof.
  intros Hx. induction n as [|n IH].
  - rewrite seqZ_nil by done.
    replace (x `min` Z.of_nat 0) with 0 by lia. cbn. lia.
  - rewrite seqZ_S, fmap_app, Zsum_app, IH.
    rewrite fmap_cons, Zsum_cons, Z.add_0_l. cbn [fmap list_fmap Zsum foldr].
    case_bool_decide.
    + replace (x `min` Z.of_nat n) with (Z.of_nat n) by lia.
      replace (x `min` Z.of_nat (S n)) with (Z.of_nat n + 1) by lia.
      lia.
    + replace (x `min` Z.of_nat (S n)) with (x `min` Z.of_nat n) by lia.
      lia.
Qed.

Lemma Zsum_telescope_range (g : Z → Z) (x k : Z) :
  0 ≤ x ≤ k →
  Zsum ((λ i, (if bool_decide (i < x) then 1 else 0) * (g (i + 1) - g i))
        <$> range 0 k)
  = g x - g 0.
Proof.
  intros Hx. unfold range. replace (k - 0) with (Z.of_nat (Z.to_nat k)) by lia.
  rewrite Zsum_telescope by lia. do 2 f_equal. lia.
Qed.

Lemma telescoping_energy_encode grid x y :
  let k := num_vars grid in
  0 ≤ x ≤ k → 0 ≤ y ≤ k →
  telescoping_energy grid (encode k x y) = alt grid x y - alt grid 0 0.
Proof.
  intros k Hx Hy. unfold telescoping_energy. fold k.
  set (s := encode k x y).
  assert (Hsx : Zsum ((λ i, bit s i * x_shift grid i) <$> range 0 k)
                = alt grid x 0 - alt grid 0 0).
  { rewrite <- (Zsum_telescope_range (λ i, alt grid i 0) x k) by done.
    apply Zsum_fmap_ext. intros i Hi%elem_of_seqZ.
    unfold s. by rewrite bit_encode_x by lia. }
  assert (Hsy : Zsum ((λ j, bit s (k + j) * y_shift grid j) <$> range 0 k)
                = alt grid 0 y - alt grid 0 0).
  { rewrite <- (Zsum_telescope_range (λ j, alt grid 0 j) y k) by done.
    apply Zsum_fmap_ext. intros j Hj%elem_of_seqZ.
    unfold s. by rewrite bit_encode_y by lia. }
  assert (Hsc : Zsum ((λ xy : Z * Z,
                  bit s xy.1 * bit s (k + xy.2) * angle_shift grid xy.1 xy.2)
                <$> index_pairs k)
                = alt grid x y - alt grid x 0 - alt grid 0 y + alt grid 0 0).
  { unfold index_pairs. rewrite Zsum_bind.
    replace (alt grid x y - alt grid x 0 - alt grid 0 y + alt grid 0 0)
      with ((alt grid x y - alt grid x 0) - (alt grid 0 y - alt grid 0 0))
      by lia.
    rewrite <- (Zsum_telescope_range
                  (λ i, alt grid i y - alt grid i 0) x k) by done.
    apply Zsum_fmap_ext. intros i Hi%elem_of_seqZ.
    rewrite <- list_fmap_compose.
    rewrite (Zsum_fmap_ext _
      (λ j, (if bool_decide (i < x) then 1 else 0)
            * ((if bool_decide (j < y) then 1 else 0)
               * ((alt grid (i + 1) (j + 1) - alt grid i (j + 1))
                  - (alt grid (i + 1) j - alt grid i j))))).
    - rewrite Zsum_fmap_scale.
      rewrite (Zsum_telescope_range
                 (λ j, alt grid (i + 1) j - alt grid i j) y k) by done.
      lia.
    - intros j Hj%elem_of_seqZ. cbn. unfold s, angle_shift.
      rewrite bit_encode_x, bit_encode_y by lia. lia. }
  rewrite Hsx, Hsy, Hsc. lia.
Qed.

(** ** The QUBO of a well-formed grid *)

Lemma get_qubo_entries grid :
  well_formed grid →
  ∃ Q, _get_qubo grid = Ok Q ∧ map_to_list Q ≡ₚ qubo_writes grid.
Proof.
  intros Hwf. exists (dict_of_items (qubo_writes grid)). split.
  - by apply get_qubo_writes.
  - apply dict_of_items_entries, qubo_writes_NoDup, num_vars_pos, Hwf.
Qed.

Lemma qubo_energy_writes grid (Q : dict) s :
  map_to_list Q ≡ₚ qubo_writes grid →
  1 ≤ num_vars grid →
  qubo_energy Q s =
    telescoping_energy grid s
    + ENCODING_BIAS
      * (violations s 0 (num_vars grid)
         + violations s (num_vars grid) (num_vars grid)).
Proof.
  intros Hperm Hk. unfold qubo_energy.
  rewrite (Zsum_permutation _ (qubo_term s <$> qubo_writes grid))
    by by apply fmap_Permutation.
  by apply writes_energy.
Qed.

Lemma Zsum_elem_le (l : list Z) a :
  Forall (λ b, 0 ≤ b) l → a ∈ l → a ≤ Zsum l.
Proof.
  induction 1 as [|b l Hb Hl IH]; [by intros ?%elem_of_nil|].
  pose proof (Zsum_nonneg l Hl).
  rewrite Zsum_cons. intros [->|Ha]%elem_of_cons; [lia|].
  specialize (IH Ha). lia.
Qed.

Lemma violations_terms_nonneg s lo k :
  Forall (λ b, 0 ≤ b)
    ((λ v, bit s (lo + v) * (1 - bit s (lo + v - 1))) <$> range 1 k).
Proof.
  apply Forall_fmap, Forall_forall. intros v _. cbn.
  destruct (bit_cases s (lo + v)) as [-> | ->],
    (bit_cases s (lo + v - 1)) as [-> | ->]; lia.
Qed.

Lemma violations_nonneg s lo k : 0 ≤ violations s lo k.
Proof. apply Zsum_nonneg, violations_terms_nonneg. Qed.

Lemma violations_pos s lo k v :
  1 ≤ v < k → bit s (lo + v) = 1 → bit s (lo + v - 1) = 0 →
  1 ≤ violations s lo k.
Proof.
  intros Hv H1 H0. unfold violations.
  etrans; [|apply Zsum_elem_le; [apply violations_terms_nonneg|]].
  2: { apply list_elem_of_fmap. exists v. split; [done|].
       unfold range. apply elem_of_seqZ. lia. }
  cbn. rewrite H1, H0. lia.
Qed.

(** ** Decoding the two axes of a sample *)

Lemma x_vars_block grid : x_vars grid = range 0 (0 + num_vars grid).
Proof. done. Qed.

Lemma y_vars_block grid :
  y_vars grid = range (num_vars grid) (num_vars grid + num_vars grid).
Proof. unfold y_vars. f_equal. lia. Qed.

Lemma in_range_len s lo k : 0 ≤ lo → lo + k ≤ len s → in_range s lo k.
Proof.
  intros Hlo Hk i Hi. rewrite getitem_nonneg by lia.
  destruct (lookup_lt_is_Some_2 s (Z.to_nat (lo + i))) as [b ->]; [|by eauto].
  unfold len in Hk. lia.
Qed.

Lemma parse_coord_outcome s lo k :
  0 ≤ k → in_range s lo k →
  _parse_coord s (range lo (lo + k)) = Ok None ∨
  ∃ c, 0 ≤ c ≤ k ∧ _parse_coord s (range lo (lo + k)) = Ok (Some c).
Proof.
  intros Hk Hin. rewrite parse_coord_block.
  pose proof (parse_loop_outcome s lo (Z.to_nat k) 0 0) as Hloop.
  rewrite Z2Nat.id in Hloop by done. apply Hloop; [lia|exact Hin].
Qed.

Lemma parse_coord_empty s lo k :
  k ≤ 0 → _parse_coord s (range lo (lo + k)) = Ok (Some 0).
Proof.
  intros Hk. rewrite parse_coord_block. unfold block_from.
  by rewrite seqZ_nil.
Qed.

Lemma parse_coord_total s lo k :
  0 ≤ lo → lo + k ≤ len s → ∃ r, _parse_coord s (range lo (lo + k)) = Ok r.
Proof.
  intros Hlo Hlen. destruct (decide (0 ≤ k)) as [Hk|Hk].
  - destruct (parse_coord_outcome s lo k Hk) as [->|(c & _ & ->)];
      eauto using in_range_len.
  - rewrite parse_coord_empty by lia. eauto.
Qed.

Lemma decode_sample_total grid s :
  2 * num_vars grid ≤ len s → ∃ c, decode_sample grid s = Ok c.
Proof.
  intros Hlen. unfold decode_sample.
  rewrite x_vars_block, y_vars_block.
  destruct (decide (0 ≤ num_vars grid)) as [Hk|Hk].
  - destruct (parse_coord_total s 0 (num_vars grid)) as [[x|] ->];
      [lia|lia| |by eauto]. cbn.
    destruct (parse_coord_total s (num_vars grid) (num_vars grid))
      as [[y|] ->]; [lia|lia|by eauto..].
  - rewrite !parse_coord_empty by lia. cbn. eauto.
Qed.

Lemma decode_sample_Some grid s x y :
  decode_sample grid s = Ok (Some (x, y)) ↔
  _parse_coord s (x_vars grid) = Ok (Some x) ∧
  _parse_coord s (y_vars grid) = Ok (Some y).
Proof.
  unfold decode_sample.
  destruct (_parse_coord s (x_vars grid)) as [[x'|]|e]; cbn;
    [|naive_solver..].
  destruct (_parse_coord s (y_vars grid)) as [[y'|]|e]; cbn; naive_solver.
Qed.

Lemma decode_sample_None grid s :
  _parse_coord s (x_vars grid) = Ok None ∨
  ((∃ x, _parse_coord s (x_vars grid) = Ok (Some x)) ∧
   _parse_coord s (y_vars grid) = Ok None) →
  decode_sample grid s = Ok None.
Proof.
  unfold decode_sample. intros [->|[[x ->] ->]]; done.
Qed.

Lemma credited_nonneg grid key sample : 0 ≤ sample.2 → 0 ≤ credited grid key sample.
Proof.
  intros Hnum. unfold credited.
  destruct (decode_sample grid sample.1) as [[key'|]|e]; try done.
  by case_bool_decide.
Qed.

Lemma credited_other grid x y sample :
  ¬ (_parse_coord sample.1 (x_vars grid) = Ok (Some x) ∧
     _parse_coord sample.1 (y_vars grid) = Ok (Some y)) →
  credited grid (x, y) sample = 0.
Proof.
  intros Hne. unfold credited.
  destruct (decode_sample grid sample.1) as [[key'|]|e] eqn:Hd; try done.
  case_bool_decide as Hkey; [|done]. subst.
  by apply decode_sample_Some in Hd.
Qed.

Lemma encode_zero k : encode k 0 0 = replicate (Z.to_nat (2 * k)) 0.
Proof.
  unfold encode, unary. change (Z.to_nat 0) with 0%nat. cbn [replicate app].
  rewrite Z.sub_0_r, <- replicate_add. f_equal. lia.
Qed.

Lemma parse_coord_prefix s lo k c :
  0 ≤ c ≤ k → encodes s lo k c →
  _parse_coord s (range lo (lo + k)) = Ok (Some c).
Proof.
  intros Hc Henc. rewrite parse_coord_block.
  pose proof (parse_loop_prefix s lo k c (Z.to_nat k) 0) as Hloop.
  rewrite Z2Nat.id in Hloop by lia.
  replace (0 `min` c) with 0 in Hloop by lia.
  apply Hloop; done || lia.
Qed.

Lemma parse_coord_violation s lo k v :
  0 < v < k → in_range s lo k →
  getitem s (lo + v) = Ok 1 → getitem s (lo + (v - 1)) = Ok 0 →
  _parse_coord s (range lo (lo + k)) = Ok None.
Proof.
  intros Hv Hin H1 H0. rewrite parse_coord_block.
  pose proof (parse_loop_violation s lo v (Z.to_nat k) 0 0) as Hloop.
  rewrite Z2Nat.id in Hloop by lia.
  apply Hloop; done || lia.
Qed.

Lemma parse_coord_agree s1 s2 lo k :
  (∀ i, lo ≤ i < lo + k → getitem s1 i = getitem s2 i) →
  _parse_coord s1 (range lo (lo + k)) = _parse_coord s2 (range lo (lo + k)).
Proof.
  intros Hagree. rewrite !parse_coord_block.
  destruct (decide (0 ≤ k)) as [Hk|Hk].
  - pose proof (parse_loop_agree s1 s2 lo (Z.to_nat k) 0 0) as Hloop.
    rewrite Z2Nat.id in Hloop by lia.
    apply Hloop; [lia|]. intros i Hi. apply Hagree. lia.
  - unfold block_from. by rewrite seqZ_nil by lia.
Qed.

(** * The claims *)

(** C3.  Decoder round trip: on a grid of side [n], for every coordinate
    of [0 .. n-1] on either axis, the canonical sample (ones on the bits
    below the coordinate, zeros above, within the block of the axis) is
    decoded by [_parse_coord] to that coordinate; in particular the sample
    that is zero on an axis decodes to coordinate [0] on it. *)
Theorem parse_coord_round_trip (grid : list (list Z)) (x y : Z) :
  0 ≤ x ≤ num_vars grid → 0 ≤ y ≤ num_vars grid →
  _parse_coord (encode (num_vars grid) x y) (x_vars grid) = Ok (Some x) ∧
  _parse_coord (encode (num_vars grid) x y) (y_vars grid) = Ok (Some y) ∧
  _parse_coord (replicate (Z.to_nat (2 * num_vars grid)) 0) (x_vars grid)
    = Ok (Some 0) ∧
  _parse_coord (replicate (Z.to_nat (2 * num_vars grid)) 0) (y_vars grid)
    = Ok (Some 0).
Proof.
  intros Hx Hy. set (k := num_vars grid) in *.
  assert (Haxes : ∀ x y, 0 ≤ x ≤ k → 0 ≤ y ≤ k →
    _parse_coord (encode k x y) (x_vars grid) = Ok (Some x) ∧
    _parse_coord (encode k x y) (y_vars grid) = Ok (Some y)).
  { clear. intros x y Hx Hy.
    rewrite x_vars_block, y_vars_block. fold k. split.
    - by apply parse_coord_prefix, encodes_encode_x.
    - by apply parse_coord_prefix, encodes_encode_y. }
  destruct (Haxes x y Hx Hy) as [??].
  destruct (Haxes 0 0) as [??]; [lia..|].
  by rewrite <- !encode_zero.
Qed.

Lemma parse_coord_round_trip_witness :
  _parse_coord (encode (num_vars LANDSCAPE) 3 9) (x_vars LANDSCAPE)
    = Ok (Some 3) ∧
  _parse_coord (encode (num_vars LANDSCAPE) 3 9) (y_vars LANDSCAPE)
    = Ok (Some 9).
Proof.
  destruct (parse_coord_round_trip LANDSCAPE 3 9) as (Hx & Hy & _).
  - vm_compute. split; discriminate.
  - vm_compute. split; discriminate.
  - split; [exact Hx|exact Hy].
Defined.

(** C4.  On the block of an axis that holds the bits [bits]: when some bit
    after the first is [1] while the bit before it is [0], [_parse_coord]
    returns the invalid marker [None]; when the bits are a run of ones
    followed by zeros, it returns the number of ones, a coordinate of
    [0 .. n-1]; it returns nothing else, and a vector of bits is always in
    one of the two cases. *)
Theorem parse_coord_outcomes (pre bits post : list Z) :
  let s := pre ++ bits ++ post in
  let variables := range (len pre) (len pre + len bits) in
  (∀ v : nat, (0 < v)%nat → bits !! v = Some 1 → bits !! (v - 1)%nat = Some 0 →
     _parse_coord s variables = Ok None) ∧
  (∀ c, 0 ≤ c ≤ len bits → bits = unary (len bits) c →
     _parse_coord s variables = Ok (Some c)) ∧
  (_parse_coord s variables = Ok None ∨
   ∃ c, 0 ≤ c ≤ len bits ∧ _parse_coord s variables = Ok (Some c)) ∧
  (Forall (λ b, b = 0 ∨ b = 1) bits →
     (_parse_coord s variables = Ok None ∧
      ∃ v : nat, (0 < v)%nat ∧ bits !! v = Some 1
                 ∧ bits !! (v - 1)%nat = Some 0) ∨
     (∃ c, 0 ≤ c ≤ len bits ∧ bits = unary (len bits) c ∧
           _parse_coord s variables = Ok (Some c))).
Proof.
  intros s variables.
  assert (Hviolation : ∀ v : nat,
    (0 < v)%nat → bits !! v = Some 1 → bits !! (v - 1)%nat = Some 0 →
    _parse_coord s variables = Ok None).
  { intros v Hv H1 H0.
    apply (parse_coord_violation _ _ _ (Z.of_nat v)).
    - apply lookup_lt_Some in H1. unfold len. lia.
    - apply in_range_block.
    - by apply getitem_block_lookup.
    - replace (Z.of_nat v - 1) with (Z.of_nat (v - 1)) by lia.
      by apply getitem_block_lookup. }
  assert (Hprefix : ∀ c, 0 ≤ c ≤ len bits → bits = unary (len bits) c →
    _parse_coord s variables = Ok (Some c)).
  { intros c Hc Heq. unfold s. rewrite Heq at 1.
    by apply parse_coord_prefix, encodes_block. }
  split_and!; [done|done| |].
  - apply parse_coord_outcome; [unfold len; lia|apply in_range_block].
  - intros [(c & Hc & Heq)|(v & Hv & H1 & H0)]%unary_or_violation.
    + right. exists c. eauto.
    + left. split; [by apply (Hviolation v)|]. eauto.
Qed.

Lemma parse_coord_outcomes_witness :
  _parse_coord ([1; 1; 1] ++ [1; 0; 1] ++ []) (range 3 6) = Ok None ∧
  _parse_coord ([1; 1; 1] ++ [1; 1; 0] ++ []) (range 3 6) = Ok (Some 2).
Proof.
  split.
  - apply (proj1 (parse_coord_outcomes [1; 1; 1] [1; 0; 1] []) 2%nat);
      [lia|reflexivity|reflexivity].
  - apply (proj1 (proj2 (parse_coord_outcomes [1; 1; 1] [1; 1; 0] [])) 2);
      [vm_compute; split; discriminate|reflexivity].
Defined.

(** C10.  Decoding an axis reads only the bits of its block: two samples
    that agree on every subscript of a contiguous block are decoded alike
    on it, whatever they hold elsewhere; so the y coordinate does not
    depend on the bits of the x block (the subscript [v_index - 1] is only
    read for [v >= 1] and stays inside the block), nor the x coordinate on
    those of the y block. *)
Theorem parse_coord_axis_local (grid : list (list Z)) (s1 s2 : list Z)
    (lo k : Z) :
  ((∀ i, lo ≤ i < lo + k → getitem s1 i = getitem s2 i) →
   _parse_coord s1 (range lo (lo + k)) = _parse_coord s2 (range lo (lo + k))) ∧
  ((∀ i, num_vars grid ≤ i < 2 * num_vars grid → getitem s1 i = getitem s2 i) →
   _parse_coord s1 (y_vars grid) = _parse_coord s2 (y_vars grid)) ∧
  ((∀ i, 0 ≤ i < num_vars grid → getitem s1 i = getitem s2 i) →
   _parse_coord s1 (x_vars grid) = _parse_coord s2 (x_vars grid)).
Proof.
  split_and!.
  - apply parse_coord_agree.
  - intros Hagree. rewrite y_vars_block. apply parse_coord_agree.
    intros i Hi. apply Hagree. lia.
  - intros Hagree. rewrite x_vars_block. apply parse_coord_agree.
    intros i Hi. apply Hagree. lia.
Qed.

Lemma parse_coord_axis_local_witness :
  _parse_coord [0; 1; 1; 0] (y_vars [[1; 2; 3]; [4; 5; 6]; [7; 8; 9]]) =
  _parse_coord [1; 0; 1; 0] (y_vars [[1; 2; 3]; [4; 5; 6]; [7; 8; 9]]).
Proof.
  apply (proj1 (proj2 (parse_coord_axis_local
           [[1; 2; 3]; [4; 5; 6]; [7; 8; 9]] [0; 1; 1; 0] [1; 0; 1; 0] 0 0))).
  intros i Hi. change (2 ≤ i < 4) in Hi.
  assert (i = 2 ∨ i = 3) as [-> | ->] by lia; reflexivity.
Defined.

(** C5.  A sample that decodes on one axis and is rejected on the other
    is discarded whole: [_interpret_sample] returns the table it was
    given, so no entry changes and the count is added nowhere, and the
    table [_interpret_samples] returns is the one it returns without that
    sample. *)
Theorem interpret_sample_discards_mixed (grid : list (list Z)) (table : dict)
    (s : list Z) (num : Z) :
  ((∃ x, _parse_coord s (x_vars grid) = Ok (Some x)) ∧
   _parse_coord s (y_vars grid) = Ok None) ∨
  (_parse_coord s (x_vars grid) = Ok None ∧
   ∃ y, _parse_coord s (y_vars grid) = Ok (Some y)) →
  _interpret_sample grid table (s, num) = Ok table ∧
  ∀ before after,
    _interpret_samples grid (before ++ (s, num) :: after) =
    _interpret_samples grid (before ++ after).
Proof.
  intros Hmixed.
  assert (Hdec : decode_sample grid s = Ok None).
  { apply decode_sample_None. destruct Hmixed as [?|[? _]]; auto. }
  assert (Hstep : ∀ table, _interpret_sample grid table (s, num) = Ok table).
  { intros table'. by rewrite interpret_sample_decode, Hdec. }
  split; [done|].
  intros before after. unfold _interpret_samples. rewrite !foldM_app.
  destruct (foldM (_interpret_sample grid) ∅ before) as [table'|e]; [|done].
  cbn. by rewrite Hstep.
Qed.

Lemma interpret_sample_discards_mixed_witness :
  _interpret_sample [[4; 3; 2]; [3; 2; 1]; [3; 2; 0]] {[ (1, 1) := 7 ]}
    ([1; 0; 0; 1], 5)
  = Ok {[ (1, 1) := 7 ]}.
Proof.
  apply (interpret_sample_discards_mixed
           [[4; 3; 2]; [3; 2; 1]; [3; 2; 0]] {[ (1, 1) := 7 ]} [1; 0; 0; 1] 5).
  left. split; [by exists 1|reflexivity].
Defined.

(** C6.  The aggregator does not depend on the order of the samples:
    [_interpret_samples] returns the same table (or raises alike) on every
    permutation of its input, the counts of one coordinate being added. *)
Theorem interpret_samples_permutation (grid : list (list Z))
    (samples samples' : list (list Z * Z)) :
  samples ≡ₚ samples' →
  _interpret_samples grid samples = _interpret_samples grid samples'.
Proof.
  intros Hperm. unfold _interpret_samples.
  apply foldM_permutation; [|done].
  intros table a b. apply interpret_sample_comm.
Qed.

Lemma interpret_samples_permutation_witness :
  _interpret_samples [[4; 3; 2]; [3; 2; 1]; [3; 2; 0]]
    [([1; 0; 1; 1], 5); ([0; 1; 0; 0], 2); ([1; 0; 1; 1], 4)]
  = _interpret_samples [[4; 3; 2]; [3; 2; 1]; [3; 2; 0]]
    [([0; 1; 0; 0], 2); ([1; 0; 1; 1], 4); ([1; 0; 1; 1], 5)].
Proof.
  apply interpret_samples_permutation.
  etrans; [apply perm_swap|]. apply perm_skip, perm_swap.
Defined.

(** C8.  The table [_interpret_samples] returns is well formed: on
    samples that cover the [2 * (n - 1)] variables and have non-negative
    counts it returns a table; every lookup in it yields a non-negative
    total, which is zero for a coordinate pair that no sample decodes to;
    and when every sample is rejected on some axis every lookup yields
    zero. *)
Theorem interpret_samples_well_formed (grid : list (list Z))
    (samples : list (list Z * Z)) :
  Forall (λ sample : list Z * Z,
            2 * num_vars grid ≤ len sample.1 ∧ 0 ≤ sample.2) samples →
  ∃ table,
    _interpret_samples grid samples = Ok table ∧
    (∀ x y, 0 ≤ table_lookup table x y) ∧
    (∀ x y,
       Forall (λ sample : list Z * Z,
                 ¬ (_parse_coord sample.1 (x_vars grid) = Ok (Some x) ∧
                    _parse_coord sample.1 (y_vars grid) = Ok (Some y)))
              samples →
       table_lookup table x y = 0) ∧
    (Forall (λ sample : list Z * Z,
               _parse_coord sample.1 (x_vars grid) = Ok None ∨
               _parse_coord sample.1 (y_vars grid) = Ok None) samples →
     ∀ x y, table_lookup table x y = 0).
Proof.
  intros Hsamples.
  destruct (interpret_samples_total grid samples ∅) as [table Hrun].
  { eapply Forall_impl; [exact Hsamples|]. cbn.
    intros sample [Hlen _]. by apply decode_sample_total. }
  exists table. split; [done|].
  assert (Hlookup : ∀ x y,
    table_lookup table x y = Zsum (credited grid (x, y) <$> samples)).
  { intros x y. rewrite table_lookup_default.
    rewrite (interpret_samples_lookup _ _ _ _ (x, y) Hrun).
    by rewrite lookup_empty. }
  assert (Hzero : ∀ x y,
    Forall (λ sample : list Z * Z,
              ¬ (_parse_coord sample.1 (x_vars grid) = Ok (Some x) ∧
                 _parse_coord sample.1 (y_vars grid) = Ok (Some y)))
           samples →
    table_lookup table x y = 0).
  { intros x y Hnone. rewrite Hlookup. apply Zsum_zero, Forall_fmap.
    eapply Forall_impl; [exact Hnone|]. cbn.
    intros sample. apply credited_other. }
  split_and!; [|done|].
  - intros x y. rewrite Hlookup. apply Zsum_nonneg, Forall_fmap.
    eapply Forall_impl; [exact Hsamples|]. cbn.
    intros sample [_ Hnum]. by apply credited_nonneg.
  - intros Hall x y. apply Hzero.
    eapply Forall_impl; [exact Hall|]. cbn.
    intros sample [Hx|Hy] [Hx' Hy']; congruence.
Qed.

Lemma interpret_samples_well_formed_witness :
  ∃ table,
    _interpret_samples [[4; 3; 2]; [3; 2; 1]; [3; 2; 0]]
      [([1; 0; 1; 1], 5); ([0; 1; 0; 0], 2)] = Ok table ∧
    ∀ x y, 0 ≤ table_lookup table x y.
Proof.
  destruct (interpret_samples_well_formed [[4; 3; 2]; [3; 2; 1]; [3; 2; 0]]
              [([1; 0; 1; 1], 5); ([0; 1; 0; 0], 2)])
    as (table & Hrun & Hnonneg & _).
  - repeat constructor; vm_compute; discriminate.
  - exists table. split; [exact Hrun|exact Hnonneg].
Defined.

Lemma LANDSCAPE_well_formed : well_formed LANDSCAPE.
Proof.
  split; [vm_compute; discriminate|].
  repeat constructor; vm_compute; discriminate.
Qed.

(** C1.  Telescoping correctness: on a well-formed grid, [LANDSCAPE] among
    them, [_get_qubo] returns a QUBO whose energy on the canonical sample
    of any coordinates [(x, y)] of the grid, the sum of the coefficients
    whose two bits are set, is [f(x, y) - f(0, 0)]. *)
Theorem get_qubo_telescoping (grid : list (list Z)) (x y : Z) :
  well_formed grid →
  0 ≤ x < len grid → 0 ≤ y < len grid →
  ∃ Q fxy f00,
    _get_qubo grid = Ok Q ∧
    altitude grid x y = Ok fxy ∧
    altitude grid 0 0 = Ok f00 ∧
    qubo_energy Q (encode (num_vars grid) x y) = fxy - f00.
Proof.
  intros Hwf Hx Hy. pose proof (num_vars_pos grid Hwf) as Hk.
  destruct (get_qubo_entries grid Hwf) as (Q & HQ & Hperm).
  exists Q, (alt grid x y), (alt grid 0 0).
  assert (0 ≤ x ≤ num_vars grid ∧ 0 ≤ y ≤ num_vars grid) as [Hx' Hy']
    by (unfold num_vars; lia).
  split_and!; [done|by apply altitude_alt|apply altitude_alt; done || lia|].
  rewrite (qubo_energy_writes grid) by done.
  rewrite (violations_encodes _ 0 _ x) by by apply encodes_encode_x.
  rewrite (violations_encodes _ _ _ y) by by apply encodes_encode_y.
  rewrite telescoping_energy_encode by done. lia.
Qed.

Lemma get_qubo_telescoping_witness :
  ∃ Q fxy f00,
    _get_qubo LANDSCAPE = Ok Q ∧
    altitude LANDSCAPE 2 2 = Ok fxy ∧
    altitude LANDSCAPE 0 0 = Ok f00 ∧
    qubo_energy Q (encode (num_vars LANDSCAPE) 2 2) = fxy - f00.
Proof.
  apply (get_qubo_telescoping LANDSCAPE 2 2).
  - split; [vm_compute; discriminate|].
    repeat constructor; vm_compute; discriminate.
  - vm_compute. split; [discriminate|reflexivity].
  - vm_compute. split; [discriminate|reflexivity].
Defined.

(** C2, as stated, fails on [LANDSCAPE]: [invalid_sample] has a one just
    after a zero in its y block, and its energy is less than
    [ENCODING_BIAS] above the energy of every valid encoding of the grid,
    whichever coordinates are taken to be intended. *)
Lemma bias_gap_counterexample :
  ∃ Q,
    _get_qubo LANDSCAPE = Ok Q ∧
    bit invalid_sample (9 + 6) = 1 ∧
    bit invalid_sample (9 + 6 - 1) = 0 ∧
    ∀ x y, 0 ≤ x < 10 → 0 ≤ y < 10 →
      qubo_energy Q invalid_sample
      < qubo_energy Q (encode 9 x y) + ENCODING_BIAS.
Proof.
  exists (dict_of_items (qubo_writes LANDSCAPE)).
  split_and!; [|reflexivity|reflexivity|].
  - apply get_qubo_writes, LANDSCAPE_well_formed.
  - intros x y Hx Hy.
    assert (Hall : Forall (λ xy : Z * Z,
      qubo_energy (dict_of_items (qubo_writes LANDSCAPE)) invalid_sample
      < qubo_energy (dict_of_items (qubo_writes LANDSCAPE))
          (encode 9 xy.1 xy.2) + ENCODING_BIAS) (index_pairs 10)).
    { apply (bool_decide_unpack _). vm_compute. exact I. }
    rewrite Forall_forall in Hall.
    apply (Hall (x, y)), elem_of_index_pairs. cbn. lia.
Qed.

(** C2, amended.  On a well-formed grid the energy of any sample is its
    telescoping energy, the sum of the shift coefficients of its set bits,
    plus [ENCODING_BIAS] for every position of either block whose bit is
    set while the bit before it is not; so a sample with such a position
    has an energy at least [ENCODING_BIAS] above its own telescoping
    energy. *)
Theorem invalid_sample_energy (grid : list (list Z)) (s : list Z) :
  well_formed grid →
  ∃ Q,
    _get_qubo grid = Ok Q ∧
    qubo_energy Q s =
      telescoping_energy grid s
      + ENCODING_BIAS
        * (violations s 0 (num_vars grid)
           + violations s (num_vars grid) (num_vars grid)) ∧
    ∀ lo v,
      lo = 0 ∨ lo = num_vars grid →
      1 ≤ v < num_vars grid →
      bit s (lo + v) = 1 → bit s (lo + v - 1) = 0 →
      telescoping_energy grid s + ENCODING_BIAS ≤ qubo_energy Q s.
Proof.
  intros Hwf. pose proof (num_vars_pos grid Hwf) as Hk.
  destruct (get_qubo_entries grid Hwf) as (Q & HQ & Hperm).
  exists Q. split; [done|].
  pose proof (qubo_energy_writes grid Q s Hperm Hk) as Henergy.
  split; [done|].
  intros lo v Hlo Hv H1 H0. rewrite Henergy.
  pose proof (violations_nonneg s 0 (num_vars grid)).
  pose proof (violations_nonneg s (num_vars grid) (num_vars grid)).
  pose proof (violations_pos s lo (num_vars grid) v Hv H1 H0).
  unfold ENCODING_BIAS. destruct Hlo as [-> | ->]; lia.
Qed.

Lemma invalid_sample_energy_witness :
  ∃ Q,
    _get_qubo LANDSCAPE = Ok Q ∧
    telescoping_energy LANDSCAPE invalid_sample + ENCODING_BIAS
    ≤ qubo_energy Q invalid_sample.
Proof.
  destruct (invalid_sample_energy LANDSCAPE invalid_sample)
    as (Q & HQ & _ & Hgap).
  - split; [vm_compute; discriminate|].
    repeat constructor; vm_compute; discriminate.
  - exists Q. split; [exact HQ|].
    apply (Hgap 9 6); [by right| |reflexivity|reflexivity].
    vm_compute. split; [discriminate|reflexivity].
Defined.

(** C7, as stated, fails: [wide_grid] is not square, and [_get_qubo]
    returns a QUBO on it. *)
Lemma no_configuration_check_counterexample :
  ¬ square wide_grid ∧
  _get_qubo wide_grid = Ok {[ (0, 0) := -1; (1, 1) := -1; (0, 1) := 0 ]}.
Proof.
  split.
  - intros Hsq. apply Forall_cons in Hsq as [Hrow _]. vm_compute in Hrow.
    discriminate.
  - vm_compute. reflexivity.
Qed.

(** C7, amended.  [_get_qubo] checks nothing before it builds the QUBO:
    it returns one on every grid of at least two rows whose rows have at
    least as many entries as the grid has rows, square or not, and on a
    grid of fewer than two rows it raises [IndexError] while building. *)
Theorem get_qubo_no_validation (grid : list (list Z)) :
  (well_formed grid → ∃ Q, _get_qubo grid = Ok Q) ∧
  (len grid < 2 → _get_qubo grid = Raise IndexError).
Proof.
  split.
  - intros Hwf. destruct (get_qubo_entries grid Hwf) as (Q & HQ & _). eauto.
  - unfold len. intros Hlen.
    destruct grid as [|row [|row' grid]]; [done|done|cbn in Hlen; lia].
Qed.

Lemma get_qubo_no_validation_witness :
  (∃ Q, _get_qubo wide_grid = Ok Q) ∧ _get_qubo [[4]] = Raise IndexError.
Proof.
  split.
  - apply (proj1 (get_qubo_no_validation wide_grid)).
    split; [vm_compute; discriminate|].
    repeat constructor; vm_compute; discriminate.
  - apply (proj2 (get_qubo_no_validation [[4]])). vm_compute. reflexivity.
Defined.

(** C9.  On a well-formed grid the passes of [_get_qubo] write pairwise
    disjoint sets of keys, so that no entry is overwritten: the keys
    written are all different and the QUBO has one entry for each; it has
    [2 * (n - 1)] diagonal entries, [(n - 1)^2] cross entries and
    [2 * (n - 2)] entries that couple adjacent bits. *)
Theorem get_qubo_passes_disjoint (grid : list (list Z)) :
  well_formed grid →
  ∃ xd yd cr xa ya Q,
    x_diag_items grid = Ok xd ∧ y_diag_items grid = Ok yd ∧
    cross_items grid = Ok cr ∧
    x_adj_items grid = Ok xa ∧ y_adj_items grid = Ok ya ∧
    _get_qubo grid = Ok Q ∧
    NoDup (xd.*1 ++ [(0, 0)] ++ yd.*1 ++ [(num_vars grid, num_vars grid)]
           ++ cr.*1 ++ xa.*1 ++ ya.*1) ∧
    Z.of_nat (size Q)
      = len xd + 1 + len yd + 1 + len cr + len xa + len ya ∧
    count_keys diagonal_key Q = 2 * num_vars grid ∧
    count_keys (cross_key (num_vars grid)) Q = num_vars grid * num_vars grid ∧
    count_keys adjacent_key Q = 2 * (num_vars grid - 1) ∧
    Z.of_nat (size Q)
      = 2 * num_vars grid + num_vars grid * num_vars grid
        + 2 * (num_vars grid - 1).
Proof.
  intros Hwf. pose proof (num_vars_pos grid Hwf) as Hk.
  destruct (get_qubo_entries grid Hwf) as (Q & HQ & Hperm).
  exists (x_diag_writes grid), (y_diag_writes grid), (cross_writes grid),
    (x_adj_writes grid), (y_adj_writes grid), Q.
  destruct (qubo_writes_count grid Hk) as (Hdiag & Hcross & Hadj & Hlen).
  assert (Hsize : Z.of_nat (size Q) = len (qubo_writes grid)).
  { unfold len. by rewrite <- Hperm, length_map_to_list. }
  split_and!.
  - by apply x_diag_items_Ok.
  - by apply y_diag_items_Ok.
  - by apply cross_items_Ok.
  - by apply x_adj_items_Ok.
  - by apply y_adj_items_Ok.
  - done.
  - pose proof (qubo_writes_NoDup grid Hk) as Hnd.
    unfold qubo_writes in Hnd. by rewrite !fmap_app in Hnd.
  - rewrite Hsize. unfold qubo_writes, len.
    rewrite !length_app. cbn [length]. lia.
  - unfold count_keys, len. by rewrite Hperm.
  - unfold count_keys, len. by rewrite Hperm.
  - unfold count_keys, len. by rewrite Hperm.
  - by rewrite Hsize.
Qed.

Lemma get_qubo_passes_disjoint_witness :
  ∃ Q, _get_qubo LANDSCAPE = Ok Q ∧ Z.of_nat (size Q) = 18 + 81 + 16.
Proof.
  destruct (get_qubo_passes_disjoint LANDSCAPE)
    as (xd & yd & cr & xa & ya & Q & _ & _ & _ & _ & _ & HQ & _ & _ & _ & _
        & _ & Hsize).
  - split; [vm_compute; discriminate|].
    repeat constructor; vm_compute; discriminate.
  - exists Q. split; [exact HQ|exact Hsize].
Defined.


(** * Further properties of the decoder *)

Lemma parse_loop_None_inv s lo m : ∀ a coord,
  0 ≤ a →
  parse_loop s (block_from lo a (Z.of_nat m)) coord = Ok None →
  ∃ v, a ≤ v < a + Z.of_nat m ∧ 0 < v
       ∧ getitem s (lo + v) = Ok 1 ∧ getitem s (lo + (v - 1)) = Ok 0.
Proof.
  induction m as [|m IH]; intros a coord Ha Hrun.
  - unfold block_from in Hrun. by rewrite seqZ_nil in Hrun.
  - assert (Hnext : ∀ coord',
      parse_loop s (block_from lo (a + 1) (Z.of_nat m)) coord' = Ok None →
      ∃ v, a ≤ v < a + Z.of_nat (S m) ∧ 0 < v
           ∧ getitem s (lo + v) = Ok 1 ∧ getitem s (lo + (v - 1)) = Ok 0).
    { intros coord' Hrun'.
      destruct (IH (a + 1) coord') as (v & Hv & ?); [lia|done|].
      exists v. split; [lia|done]. }
    rewrite parse_loop_step in Hrun.
    destruct (getitem s (lo + a)) as [b|e] eqn:Hb; [cbn in Hrun|done].
    case_bool_decide as Hb1; [subst b|by eauto].
    case_bool_decide as Ha0; [|by eauto].
    replace (lo + a - 1) with (lo + (a - 1)) in Hrun by lia.
    destruct (getitem s (lo + (a - 1))) as [p|e] eqn:Hp; [cbn in Hrun|done].
    case_bool_decide as Hp0; [subst p|by eauto].
    exists a. split_and!; done || lia.
Qed.

Lemma parse_loop_Some_inv s lo m : ∀ a coord c,
  0 ≤ a →
  after_last_one s lo a coord →
  parse_loop s (block_from lo a (Z.of_nat m)) coord = Ok (Some c) →
  after_last_one s lo (a + Z.of_nat m) c ∧
  ∀ i, a ≤ i < a + Z.of_nat m → ∃ b, getitem s (lo + i) = Ok b.
Proof.
  induction m as [|m IH]; intros a coord c Ha Hinv Hrun.
  - unfold block_from in Hrun. rewrite seqZ_nil in Hrun by done.
    injection Hrun as <-. rewrite Z.add_0_r. split; [done|]. intros i Hi. lia.
  - assert (Hnext : ∀ coord' b,
      getitem s (lo + a) = Ok b →
      after_last_one s lo (a + 1) coord' →
      parse_loop s (block_from lo (a + 1) (Z.of_nat m)) coord' = Ok (Some c) →
      after_last_one s lo (a + Z.of_nat (S m)) c ∧
      ∀ i, a ≤ i < a + Z.of_nat (S m) → ∃ b, getitem s (lo + i) = Ok b).
    { intros coord' b Hb Hinv' Hrun'.
      destruct (IH (a + 1) coord' c) as [Hlast Hin]; [lia|done|done|].
      replace (a + 1 + Z.of_nat m) with (a + Z.of_nat (S m)) in * by lia.
      split; [done|]. intros i Hi.
      destruct (decide (i = a)) as [->|]; [by eauto|]. apply Hin. lia. }
    assert (Hset : getitem s (lo + a) = Ok 1 → after_last_one s lo (a + 1) (a + 1)).
    { intros H1. split; [|intros i Hi; lia]. right. split; [lia|].
      by replace (a + 1 - 1) with a by lia. }
    assert (Hkeep : ∀ b, getitem s (lo + a) = Ok b → b ≠ 1 →
                         after_last_one s lo (a + 1) coord).
    { intros b Hb Hb1. destruct Hinv as [Hc Hnone]. split.
      - destruct Hc as [?|[? ?]]; [by left|right]. split; [lia|done].
      - intros i Hi. destruct (decide (i = a)) as [->|].
        + rewrite Hb. congruence.
        + apply Hnone. lia. }
    rewrite parse_loop_step in Hrun.
    destruct (getitem s (lo + a)) as [b|e] eqn:Hb; [cbn in Hrun|done].
    case_bool_decide as Hb1; [subst b|by eauto].
    case_bool_decide as Ha0; [|by eauto].
    destruct (getitem s (lo + a - 1)) as [p|e]; [cbn in Hrun|done].
    case_bool_decide; [done|by eauto].
Qed.

Lemma parse_coord_None_inv s lo k :
  _parse_coord s (range lo (lo + k)) = Ok None → violates s lo k.
Proof.
  rewrite parse_coord_block. intros Hrun.
  destruct (decide (0 ≤ k)) as [Hk|Hk].
  - rewrite <- (Z2Nat.id k) in Hrun by done.
    apply parse_loop_None_inv in Hrun as (v & Hv & ? & ? & ?); [|done].
    exists v. split; [lia|done].
  - unfold block_from in Hrun. by rewrite seqZ_nil in Hrun by lia.
Qed.

Lemma parse_coord_Some_inv s lo k c :
  0 ≤ k →
  _parse_coord s (range lo (lo + k)) = Ok (Some c) →
  after_last_one s lo k c ∧ in_range s lo k.
Proof.
  rewrite parse_coord_block. intros Hk Hrun.
  rewrite <- (Z2Nat.id k) in Hrun by done.
  apply parse_loop_Some_inv in Hrun as [Hlast Hin]; [|done|].
  - rewrite Z.add_0_l, Z2Nat.id in Hlast, Hin by done. done.
  - split; [by left|]. intros i Hi. lia.
Qed.

Lemma after_last_one_unique s lo k c c' :
  after_last_one s lo k c → after_last_one s lo k c' → c = c'.
Proof.
  intros [Hc Hnone] [Hc' Hnone'].
  destruct (Z.lt_trichotomy c c') as [Hlt|[->|Hlt]]; [|done|].
  - destruct Hc' as [->|[Hr H1]].
    + destruct Hc as [->|[??]]; lia.
    + destruct (Hnone (c' - 1)); [|done].
      destruct Hc as [->|[??]]; lia.
  - destruct Hc as [->|[Hr H1]].
    + destruct Hc' as [->|[??]]; lia.
    + destruct (Hnone' (c - 1)); [|done].
      destruct Hc' as [->|[??]]; lia.
Qed.

(** X1.  On a block whose subscripts are within the sample, whatever
    integers the sample holds, [_parse_coord] returns [None] exactly when
    some entry after the first is [1] while the entry before it is [0]. *)
Theorem parse_coord_None_iff (s : list Z) (lo k : Z) :
  in_range s lo k →
  _parse_coord s (range lo (lo + k)) = Ok None ↔ violates s lo k.
Proof.
  intros Hin. split; [apply parse_coord_None_inv|].
  intros (v & Hv & H1 & H0). by apply (parse_coord_violation s lo k v).
Qed.

Lemma parse_coord_None_iff_witness :
  _parse_coord [2; 0; 1; 7] (range 0 (0 + 4)) = Ok None ↔
  violates [2; 0; 1; 7] 0 4.
Proof.
  apply (parse_coord_None_iff [2; 0; 1; 7] 0 4).
  apply in_range_len; vm_compute; discriminate.
Defined.

(** X2.  On such a block [_parse_coord] returns the coordinate [c] exactly
    when no entry that is [1] follows an entry that is [0] and [c] is the
    position after the last entry that is [1] ([0] when there is none):
    entries other than [0] and [1] are passed over as if they were unset,
    and do not make a later [1] invalid. *)
Theorem parse_coord_Some_iff (s : list Z) (lo k c : Z) :
  0 ≤ k → in_range s lo k →
  _parse_coord s (range lo (lo + k)) = Ok (Some c) ↔
  ¬ violates s lo k ∧ after_last_one s lo k c.
Proof.
  intros Hk Hin. split.
  - intros Hrun. split.
    + intros Hviol%parse_coord_None_iff; [congruence|done].
    + by apply parse_coord_Some_inv.
  - intros [Hvalid Hlast].
    destruct (parse_coord_outcome s lo k Hk Hin) as [Hnone|(c' & _ & Hsome)].
    + by apply parse_coord_None_inv in Hnone.
    + rewrite Hsome. do 2 f_equal.
      apply parse_coord_Some_inv in Hsome as [Hlast' _]; [|done].
      by apply (after_last_one_unique s lo k).
Qed.

Lemma parse_coord_Some_iff_witness :
  _parse_coord [1; 7; 1; 2] (range 0 (0 + 4)) = Ok (Some 3) ↔
  ¬ violates [1; 7; 1; 2] 0 4 ∧ after_last_one [1; 7; 1; 2] 0 4 3.
Proof.
  apply (parse_coord_Some_iff [1; 7; 1; 2] 0 4 3).
  - vm_compute. discriminate.
  - apply in_range_len; vm_compute; discriminate.
Defined.

(** X3.  A block without an entry [0], such as one of spins [-1] and [1],
    is never rejected: [_parse_coord] returns the position after its last
    [1], whether or not the ones form a prefix. *)
Theorem parse_coord_zero_free (s : list Z) (lo k : Z) :
  0 ≤ k → in_range s lo k →
  (∀ i, 0 ≤ i < k → getitem s (lo + i) ≠ Ok 0) →
  ∃ c, 0 ≤ c ≤ k ∧ after_last_one s lo k c ∧
       _parse_coord s (range lo (lo + k)) = Ok (Some c).
Proof.
  intros Hk Hin Hfree.
  destruct (parse_coord_outcome s lo k Hk Hin) as [Hnone|(c & Hc & Hsome)].
  - apply parse_coord_None_inv in Hnone as (v & Hv & _ & H0).
    destruct (Hfree (v - 1)); [lia|done].
  - exists c. split_and!; [lia..| |done].
    by apply parse_coord_Some_inv in Hsome as [? _].
Qed.

Lemma parse_coord_zero_free_witness :
  ∃ c, 0 ≤ c ≤ 3 ∧ after_last_one [-1; -1; 1] 0 3 c ∧
       _parse_coord [-1; -1; 1] (range 0 (0 + 3)) = Ok (Some c).
Proof.
  apply (parse_coord_zero_free [-1; -1; 1] 0 3).
  - vm_compute. discriminate.
  - apply in_range_len; vm_compute; discriminate.
  - intros i Hi.
    assert (i = 0 ∨ i = 1 ∨ i = 2) as [-> | [-> | ->]] by lia; discriminate.
Defined.

(** X4.  A sample that does not reach the end of a non-empty block is
    never decoded to a coordinate on it: the result is [None] or an
    [IndexError]. *)
Theorem parse_coord_short_sample (s : list Z) (lo k : Z) :
  0 ≤ lo → 0 < k → len s < lo + k →
  _parse_coord s (range lo (lo + k)) = Ok None ∨
  _parse_coord s (range lo (lo + k)) = Raise IndexError.
Proof.
  intros Hlo Hk Hshort.
  destruct (_parse_coord s (range lo (lo + k))) as [[c|]|[]] eqn:Hrun; auto.
  apply parse_coord_Some_inv in Hrun as [_ Hin]; [|lia].
  destruct (Hin (k - 1)) as [b Hb]; [lia|].
  apply getitem_Ok_nonneg, lookup_lt_Some in Hb; [|lia].
  unfold len in Hshort. lia.
Qed.

Lemma parse_coord_short_sample_witness :
  _parse_coord [1; 1] (range 0 (0 + 3)) = Ok None ∨
  _parse_coord [1; 1] (range 0 (0 + 3)) = Raise IndexError.
Proof.
  apply (parse_coord_short_sample [1; 1] 0 3); vm_compute;
    reflexivity || discriminate.
Defined.

(** * Further properties of the aggregator *)

Lemma interpret_samples_decoded grid samples : ∀ table table',
  foldM (_interpret_sample grid) table samples = Ok table' →
  Forall (λ sample : list Z * Z, ∃ c, decode_sample grid sample.1 = Ok c)
    samples.
Proof.
  induction samples as [|[s num] samples IH]; intros table table' Hrun;
    [by constructor|].
  cbn in Hrun. rewrite interpret_sample_decode in Hrun.
  destruct (decode_sample grid s) as [c|e] eqn:Hc; [cbn in Hrun|done].
  constructor; [by eauto|]. by eapply IH.
Qed.

Lemma table_total_insert table key v :
  table !! key = None →
  table_total (<[key := v]> table) = v + table_total table.
Proof.
  intros Hkey. unfold table_total.
  by rewrite (Zsum_permutation _ _
    (fmap_Permutation snd _ _ (map_to_list_insert table key v Hkey))).
Qed.

Lemma table_total_credit table key num :
  table_total (credit table key num) = table_total table + num.
Proof.
  unfold credit. destruct (table !! key) as [v|] eqn:Hkey; cbn.
  - rewrite <- insert_delete_eq.
    rewrite table_total_insert by apply lookup_delete_eq.
    rewrite <- (insert_delete_id table key v Hkey) at 2.
    rewrite table_total_insert by apply lookup_delete_eq. lia.
  - rewrite table_total_insert by done. lia.
Qed.

Lemma decode_sample_range grid s x y :
  0 ≤ num_vars grid →
  decode_sample grid s = Ok (Some (x, y)) →
  0 ≤ x ≤ num_vars grid ∧ 0 ≤ y ≤ num_vars grid.
Proof.
  intros Hk [Hx Hy]%decode_sample_Some.
  rewrite x_vars_block in Hx. rewrite y_vars_block in Hy.
  apply parse_coord_Some_inv in Hx as [[Hx _] _]; [|done].
  apply parse_coord_Some_inv in Hy as [[Hy _] _]; [|done].
  lia.
Qed.

Lemma decode_sample_encode grid x y :
  0 ≤ x ≤ num_vars grid → 0 ≤ y ≤ num_vars grid →
  decode_sample grid (encode (num_vars grid) x y) = Ok (Some (x, y)).
Proof.
  intros Hx Hy. apply decode_sample_Some.
  rewrite x_vars_block, y_vars_block. split.
  - by apply parse_coord_prefix, encodes_encode_x.
  - by apply parse_coord_prefix, encodes_encode_y.
Qed.

(** X5.  Every entry of the table [_interpret_samples] returns is the sum
    of the occurrence counts of the samples decoded to its coordinates,
    and an absent entry stands for the sum [0]. *)
Theorem interpret_samples_entry (grid : list (list Z))
    (samples : list (list Z * Z)) (table : dict) (x y : Z) :
  _interpret_samples grid samples = Ok table →
  table_lookup table x y = Zsum (credited grid (x, y) <$> samples).
Proof.
  intros Hrun. rewrite table_lookup_default.
  rewrite (interpret_samples_lookup _ _ _ _ (x, y) Hrun).
  by rewrite lookup_empty.
Qed.

Lemma interpret_samples_entry_witness :
  table_lookup {[ (1, 2) := 9 ]} 1 2 =
  Zsum (credited [[4; 3; 2]; [3; 2; 1]; [3; 2; 0]] (1, 2)
        <$> [([1; 0; 1; 1], 5); ([0; 1; 0; 0], 2); ([1; 0; 1; 1], 4)]).
Proof.
  apply (interpret_samples_entry [[4; 3; 2]; [3; 2; 1]; [3; 2; 0]]
           [([1; 0; 1; 1], 5); ([0; 1; 0; 0], 2); ([1; 0; 1; 1], 4)]
           {[ (1, 2) := 9 ]} 1 2).
  vm_compute. reflexivity.
Defined.

(** X6.  No occurrence is lost or counted twice: the entries of the table
    add up to the occurrence counts of the samples that decode on both
    axes. *)
Theorem interpret_samples_total_count (grid : list (list Z))
    (samples : list (list Z * Z)) (table : dict) :
  _interpret_samples grid samples = Ok table →
  table_total table = Zsum (accepted grid <$> samples).
Proof.
  unfold _interpret_samples.
  assert (Hgen : ∀ start : dict,
    foldM (_interpret_sample grid) start samples = Ok table →
    table_total table = table_total start + Zsum (accepted grid <$> samples)).
  { induction samples as [|[s num] samples IH]; intros start Hrun.
    - cbn in *. injection Hrun as <-. lia.
    - cbn in Hrun. rewrite interpret_sample_decode in Hrun.
      rewrite fmap_cons, Zsum_cons. unfold accepted at 1. cbn [fst snd].
      destruct (decode_sample grid s) as [[key|]|e]; cbn in Hrun; [| |done].
      + rewrite (IH _ Hrun), table_total_credit. lia.
      + rewrite (IH _ Hrun). lia. }
  intros Hrun. by rewrite (Hgen ∅ Hrun).
Qed.

Lemma interpret_samples_total_count_witness :
  table_total {[ (1, 2) := 5; (1, 0) := 4 ]} =
  Zsum (accepted [[4; 3; 2]; [3; 2; 1]; [3; 2; 0]]
        <$> [([1; 0; 1; 1], 5); ([0; 1; 0; 0], 2); ([1; 0; 0; 0], 4)]).
Proof.
  apply (interpret_samples_total_count [[4; 3; 2]; [3; 2; 1]; [3; 2; 0]]
           [([1; 0; 1; 1], 5); ([0; 1; 0; 0], 2); ([1; 0; 0; 0], 4)]
           {[ (1, 2) := 5; (1, 0) := 4 ]}).
  vm_compute. reflexivity.
Defined.

(** X7.  The table never holds a key outside the grid: on a grid with at
    least one row, every key [(x, y)] of the table [_interpret_samples]
    returns has [0 <= x, y <= n - 1]. *)
Theorem interpret_samples_keys_in_grid (grid : list (list Z))
    (samples : list (list Z * Z)) (table : dict) (x y : Z) :
  1 ≤ len grid →
  _interpret_samples grid samples = Ok table →
  is_Some (table !! (x, y)) →
  0 ≤ x < len grid ∧ 0 ≤ y < len grid.
Proof.
  intros Hn. unfold _interpret_samples.
  assert (Hk : 0 ≤ num_vars grid) by (unfold num_vars; lia).
  assert (Hgen : ∀ start : dict,
    (∀ key, is_Some (start !! key) →
       0 ≤ key.1 ≤ num_vars grid ∧ 0 ≤ key.2 ≤ num_vars grid) →
    foldM (_interpret_sample grid) start samples = Ok table →
    ∀ key, is_Some (table !! key) →
       0 ≤ key.1 ≤ num_vars grid ∧ 0 ≤ key.2 ≤ num_vars grid).
  { induction samples as [|[s num] samples IH]; intros start Hstart Hrun.
    - cbn in Hrun. by injection Hrun as <-.
    - cbn in Hrun. rewrite interpret_sample_decode in Hrun.
      destruct (decode_sample grid s) as [[[x' y']|]|e] eqn:Hd;
        cbn in Hrun; [| |done].
      + apply (IH (credit start (x', y') num)); [|done].
        intros key Hkey. unfold credit in Hkey.
        destruct (decide (key = (x', y'))) as [->|Hne].
        * by apply (decode_sample_range grid s).
        * rewrite lookup_insert_ne in Hkey by done. by apply Hstart.
      + by apply (IH _ Hstart Hrun). }
  intros Hrun Hkey.
  destruct (Hgen ∅) with (key := (x, y)) as [Hx Hy]; try done.
  - intros key []%lookup_empty_is_Some.
  - unfold num_vars in *. cbn in *. lia.
Qed.

Lemma interpret_samples_keys_in_grid_witness :
  0 ≤ 1 < len [[4; 3; 2]; [3; 2; 1]; [3; 2; 0]] ∧
  0 ≤ 2 < len [[4; 3; 2]; [3; 2; 1]; [3; 2; 0]].
Proof.
  apply (interpret_samples_keys_in_grid [[4; 3; 2]; [3; 2; 1]; [3; 2; 0]]
           [([1; 0; 1; 1], 5)] {[ (1, 2) := 5 ]} 1 2).
  - vm_compute. discriminate.
  - vm_compute. reflexivity.
  - by exists 5.
Defined.

(** X8.  One sample on which a decoded axis raises aborts the whole
    aggregation: when [_parse_coord] raises on the x block of some sample,
    or on its y block after the x block was decoded, [_interpret_samples]
    raises [IndexError] and returns no table, whatever the other samples
    are. *)
Theorem interpret_samples_raises (grid : list (list Z))
    (samples : list (list Z * Z)) (s : list Z) (num : Z) :
  (s, num) ∈ samples →
  _parse_coord s (x_vars grid) = Raise IndexError ∨
  ((∃ x, _parse_coord s (x_vars grid) = Ok (Some x)) ∧
   _parse_coord s (y_vars grid) = Raise IndexError) →
  _interpret_samples grid samples = Raise IndexError.
Proof.
  intros Hin Hraise.
  assert (Hdec : decode_sample grid s = Raise IndexError).
  { unfold decode_sample. destruct Hraise as [->|[[x ->] ->]]; done. }
  unfold _interpret_samples. generalize (∅ : dict) as start.
  induction samples as [|sample samples IH]; intros start;
    [by apply elem_of_nil in Hin|].
  cbn. apply elem_of_cons in Hin as [<-|Hin].
  - by rewrite interpret_sample_decode, Hdec.
  - destruct (_interpret_sample grid start sample) as [table|[]]; [|done].
    by apply IH.
Qed.

Lemma interpret_samples_raises_witness :
  _interpret_samples [[4; 3; 2]; [3; 2; 1]; [3; 2; 0]]
    [([1; 0; 1; 1], 5); ([1; 1; 0], 2); ([1; 0; 0; 0], 4)]
  = Raise IndexError.
Proof.
  apply (interpret_samples_raises [[4; 3; 2]; [3; 2; 1]; [3; 2; 0]]
           [([1; 0; 1; 1], 5); ([1; 1; 0], 2); ([1; 0; 0; 0], 4)]
           [1; 1; 0] 2).
  - apply list_elem_of_further, list_elem_of_here.
  - right. split; [by exists 2|reflexivity].
Defined.

(** X9.  Encoding, decoding and aggregation compose: on the canonical
    samples of a list of triples [(x, y, num)] with coordinates of the
    grid, [_interpret_samples] returns a table whose entry at any [(x, y)]
    is the sum of the [num] of the triples with these coordinates. *)
Theorem interpret_samples_canonical (grid : list (list Z))
    (l : list (Z * Z * Z)) :
  Forall (λ c : Z * Z * Z,
            0 ≤ c.1.1 ≤ num_vars grid ∧ 0 ≤ c.1.2 ≤ num_vars grid) l →
  ∃ table,
    _interpret_samples grid (canonical_sample (num_vars grid) <$> l)
      = Ok table ∧
    ∀ x y,
      table_lookup table x y =
      Zsum ((λ c : Z * Z * Z, if bool_decide (c.1 = (x, y)) then c.2 else 0)
            <$> l).
Proof.
  intros Hl.
  destruct (interpret_samples_total grid
              (canonical_sample (num_vars grid) <$> l) ∅) as [table Hrun].
  { apply Forall_fmap. eapply Forall_impl; [exact Hl|]. cbn.
    intros [[x y] num] [Hx Hy]. cbn in *.
    rewrite decode_sample_encode by done. eauto. }
  exists table. split; [done|]. intros x y.
  rewrite table_lookup_default.
  rewrite (interpret_samples_lookup _ _ _ _ (x, y) Hrun), lookup_empty.
  rewrite <- list_fmap_compose. cbn. apply Zsum_fmap_ext.
  intros [[x' y'] num] Hc. rewrite Forall_forall in Hl.
  destruct (Hl _ Hc) as [Hx Hy]. cbn in *. unfold credited. cbn.
  by rewrite decode_sample_encode by done.
Qed.

Lemma interpret_samples_canonical_witness :
  ∃ table,
    _interpret_samples LANDSCAPE
      (canonical_sample (num_vars LANDSCAPE)
         <$> [((2, 2), 7); ((9, 0), 1); ((2, 2), 3)]) = Ok table ∧
    ∀ x y,
      table_lookup table x y =
      Zsum ((λ c : Z * Z * Z, if bool_decide (c.1 = (x, y)) then c.2 else 0)
            <$> [((2, 2), 7); ((9, 0), 1); ((2, 2), 3)]).
Proof.
  apply (interpret_samples_canonical LANDSCAPE
           [((2, 2), 7); ((9, 0), 1); ((2, 2), 3)]).
  repeat constructor; vm_compute; discriminate.
Defined.

(** X10.  Aggregation can be split: when [_interpret_samples] returns a
    table on [l1 ++ l2], it returns one on [l1] and one on [l2], and every
    entry of the first is the sum of the entries of the other two. *)
Theorem interpret_samples_app (grid : list (list Z))
    (l1 l2 : list (list Z * Z)) (table : dict) :
  _interpret_samples grid (l1 ++ l2) = Ok table →
  ∃ table1 table2,
    _interpret_samples grid l1 = Ok table1 ∧
    _interpret_samples grid l2 = Ok table2 ∧
    ∀ x y, table_lookup table x y
           = table_lookup table1 x y + table_lookup table2 x y.
Proof.
  intros Hrun.
  pose proof (interpret_samples_decoded _ _ _ _ Hrun) as Hdec.
  apply Forall_app in Hdec as [Hdec1 Hdec2].
  destruct (interpret_samples_total grid l1 ∅ Hdec1) as [table1 Hrun1].
  destruct (interpret_samples_total grid l2 ∅ Hdec2) as [table2 Hrun2].
  exists table1, table2. split_and!; [done..|]. intros x y.
  rewrite !table_lookup_default.
  rewrite (interpret_samples_lookup _ _ _ _ (x, y) Hrun),
    (interpret_samples_lookup _ _ _ _ (x, y) Hrun1),
    (interpret_samples_lookup _ _ _ _ (x, y) Hrun2).
  rewrite fmap_app, Zsum_app, lookup_empty. cbn. lia.
Qed.

Lemma interpret_samples_app_witness :
  ∃ table1 table2,
    _interpret_samples [[4; 3; 2]; [3; 2; 1]; [3; 2; 0]]
      [([1; 0; 1; 1], 5)] = Ok table1 ∧
    _interpret_samples [[4; 3; 2]; [3; 2; 1]; [3; 2; 0]]
      [([0; 1; 0; 0], 2); ([1; 0; 1; 1], 4)] = Ok table2 ∧
    ∀ x y, table_lookup {[ (1, 2) := 9 ]} x y
           = table_lookup table1 x y + table_lookup table2 x y.
Proof.
  apply (interpret_samples_app [[4; 3; 2]; [3; 2; 1]; [3; 2; 0]]
           [([1; 0; 1; 1], 5)] [([0; 1; 0; 0], 2); ([1; 0; 1; 1], 4)]
           {[ (1, 2) := 9 ]}).
  vm_compute. reflexivity.
Defined.

(** * Further properties of the shifts *)

Lemma getitem_ge {A : Type} (l : list A) i :
  len l ≤ i → getitem l i = Raise IndexError.
Proof.
  unfold len. intros Hi. rewrite getitem_nonneg by lia.
  by rewrite lookup_ge_None_2 by lia.
Qed.

Lemma getitem_negative {A : Type} (l : list A) i :
  - len l ≤ i < 0 → getitem l i = getitem l (i + len l).
Proof.
  intros Hi. rewrite (getitem_nonneg l (i + len l)) by lia.
  unfold getitem. rewrite (bool_decide_eq_true_2 (i < 0)) by lia.
  by rewrite (bool_decide_eq_false_2 (i + len l < 0)) by lia.
Qed.

Lemma altitude_negative grid x y :
  - len grid ≤ x < 0 → altitude grid x y = altitude grid (x + len grid) y.
Proof. intros Hx. unfold altitude. by rewrite getitem_negative. Qed.

Lemma altitude_first_row grid row y :
  grid !! 0%nat = Some row → altitude grid 0 y = getitem row y.
Proof.
  intros Hrow. unfold altitude. rewrite getitem_nonneg by lia.
  change (Z.to_nat 0) with 0%nat. by rewrite Hrow.
Qed.

Lemma Zsum_differences (g : Z → Z) (x : Z) :
  0 ≤ x → Zsum ((λ i, g (i + 1) - g i) <$> range 0 x) = g x - g 0.
Proof.
  intros Hx. rewrite <- (Zsum_telescope_range g x x) by lia.
  apply Zsum_fmap_ext. intros i Hi%elem_of_seqZ.
  rewrite bool_decide_eq_true_2 by lia. lia.
Qed.

(** X11.  The shifts raise at the far edge of the grid: [_x_shift(x)] and
    [_angle_shift(x, y)] raise [IndexError] for [x >= n - 1], where [n] is
    the number of rows, and [_y_shift(y)] raises it for [y] from the last
    column of the first row on. *)
Theorem shift_past_edge (grid : list (list Z)) (x y : Z) :
  (len grid - 1 ≤ x →
   _x_shift grid x = Raise IndexError ∧
   _angle_shift grid x y = Raise IndexError) ∧
  (∀ row, grid !! 0%nat = Some row → len row - 1 ≤ y →
   _y_shift grid y = Raise IndexError).
Proof.
  split.
  - intros Hx. unfold _x_shift, _angle_shift, altitude.
    by rewrite (getitem_ge grid (x + 1)) by lia.
  - intros row Hrow Hy. unfold _y_shift.
    rewrite (altitude_first_row grid row (y + 1) Hrow).
    by rewrite getitem_ge by lia.
Qed.

Lemma shift_past_edge_witness :
  _x_shift LANDSCAPE 9 = Raise IndexError ∧
  _angle_shift LANDSCAPE 9 0 = Raise IndexError.
Proof.
  apply (proj1 (shift_past_edge LANDSCAPE 9 0)). vm_compute. discriminate.
Defined.

(** X12.  The shifts do not reject a negative argument: the subscripts
    wrap around as Python's do, so that [_x_shift(-1)] is
    [f(0, 0) - f(n - 1, 0)] and, for [-n <= x < -1], [_x_shift(x)] is
    [_x_shift(x + n)]. *)
Theorem x_shift_negative (grid : list (list Z)) (x : Z) :
  (1 ≤ len grid →
   _x_shift grid (-1) =
     a ← altitude grid 0 0; b ← altitude grid (len grid - 1) 0; Ok (a - b)) ∧
  (- len grid ≤ x < -1 → _x_shift grid x = _x_shift grid (x + len grid)).
Proof.
  split.
  - intros Hn. unfold _x_shift. rewrite (altitude_negative grid (-1)) by lia.
    by replace (-1 + len grid) with (len grid - 1) by lia.
  - intros Hx. unfold _x_shift.
    rewrite (altitude_negative grid x), (altitude_negative grid (x + 1))
      by lia.
    by replace (x + 1 + len grid) with (x + len grid + 1) by lia.
Qed.

Lemma x_shift_negative_witness :
  _x_shift LANDSCAPE (-1) = Ok (4 - 7) ∧
  _x_shift LANDSCAPE (-7) = _x_shift LANDSCAPE (-7 + len LANDSCAPE).
Proof.
  split.
  - rewrite (proj1 (x_shift_negative LANDSCAPE 0)); [reflexivity|].
    vm_compute. discriminate.
  - apply (proj2 (x_shift_negative LANDSCAPE (-7))). vm_compute.
    split; [discriminate|reflexivity].
Defined.

(** X13.  The shifts telescope: on a well-formed grid, for coordinates
    [(x, y)] of the grid, the x shifts below [x] add up to
    [f(x, 0) - f(0, 0)], the y shifts below [y] to [f(0, y) - f(0, 0)],
    and the angle shifts of the pairs below [(x, y)] to
    [f(x, y) - f(x, 0) - f(0, y) + f(0, 0)]. *)
Theorem shifts_telescope (grid : list (list Z)) (x y : Z) :
  well_formed grid →
  0 ≤ x < len grid → 0 ≤ y < len grid →
  ∃ xs ys angles fxy fx0 f0y f00,
    mapM (_x_shift grid) (range 0 x) = Ok xs ∧
    mapM (_y_shift grid) (range 0 y) = Ok ys ∧
    mapM (λ ij : Z * Z, _angle_shift grid ij.1 ij.2)
         (i ← range 0 x; (λ j, (i, j)) <$> range 0 y) = Ok angles ∧
    altitude grid x y = Ok fxy ∧ altitude grid x 0 = Ok fx0 ∧
    altitude grid 0 y = Ok f0y ∧ altitude grid 0 0 = Ok f00 ∧
    Zsum xs = fx0 - f00 ∧
    Zsum ys = f0y - f00 ∧
    Zsum angles = fxy - fx0 - f0y + f00.
Proof.
  intros Hwf Hx Hy. pose proof (num_vars_pos grid Hwf) as Hk.
  assert (0 ≤ x ≤ num_vars grid ∧ 0 ≤ y ≤ num_vars grid) as [Hx' Hy']
    by (unfold num_vars; lia).
  exists (x_shift grid <$> range 0 x), (y_shift grid <$> range 0 y),
    ((λ ij : Z * Z, angle_shift grid ij.1 ij.2)
       <$> (i ← range 0 x; (λ j, (i, j)) <$> range 0 y)),
    (alt grid x y), (alt grid x 0), (alt grid 0 y), (alt grid 0 0).
  split_and!.
  - apply mapM_Ok, Forall_seqZ. intros i Hi. apply x_shift_Ok; [done|lia].
  - apply mapM_Ok, Forall_seqZ. intros j Hj. apply y_shift_Ok; [done|lia].
  - apply mapM_Ok, Forall_forall. intros [i j] Hij.
    apply list_elem_of_bind in Hij as (i' & Hj & Hi).
    apply list_elem_of_fmap in Hj as (j' & [= -> ->] & Hj).
    apply elem_of_seqZ in Hi, Hj. apply angle_shift_Ok; [done|cbn; lia..].
  - by apply altitude_alt.
  - apply altitude_alt; done || lia.
  - apply altitude_alt; done || lia.
  - apply altitude_alt; done || lia.
  - apply (Zsum_differences (λ i, alt grid i 0)). lia.
  - apply (Zsum_differences (λ j, alt grid 0 j)). lia.
  - rewrite Zsum_bind.
    replace (alt grid x y - alt grid x 0 - alt grid 0 y + alt grid 0 0)
      with ((alt grid x y - alt grid x 0) - (alt grid 0 y - alt grid 0 0))
      by lia.
    rewrite <- (Zsum_differences (λ i, alt grid i y - alt grid i 0)) by lia.
    apply Zsum_fmap_ext. intros i _. rewrite <- list_fmap_compose.
    etrans; [|etrans;
      [apply (Zsum_differences (λ j, alt grid (i + 1) j - alt grid i j) y)|]];
      [|lia|lia].
    apply Zsum_fmap_ext. intros j _. cbn. unfold angle_shift. lia.
Qed.

Lemma shifts_telescope_witness :
  ∃ xs ys angles fxy fx0 f0y f00,
    mapM (_x_shift LANDSCAPE) (range 0 2) = Ok xs ∧
    mapM (_y_shift LANDSCAPE) (range 0 3) = Ok ys ∧
    mapM (λ ij : Z * Z, _angle_shift LANDSCAPE ij.1 ij.2)
         (i ← range 0 2; (λ j, (i, j)) <$> range 0 3) = Ok angles ∧
    altitude LANDSCAPE 2 3 = Ok fxy ∧ altitude LANDSCAPE 2 0 = Ok fx0 ∧
    altitude LANDSCAPE 0 3 = Ok f0y ∧ altitude LANDSCAPE 0 0 = Ok f00 ∧
    Zsum xs = fx0 - f00 ∧
    Zsum ys = f0y - f00 ∧
    Zsum angles = fxy - fx0 - f0y + f00.
Proof.
  apply (shifts_telescope LANDSCAPE 2 3).
  - split; [vm_compute; discriminate|].
    repeat constructor; vm_compute; discriminate.
  - vm_compute. split; [discriminate|reflexivity].
  - vm_compute. split; [discriminate|reflexivity].
Defined.

(** * Further properties of the QUBO *)

Lemma dict_of_items_lookup (l : list (Z * Z * Z)) key v :
  NoDup l.*1 → dict_of_items l !! key = Some v ↔ (key, v) ∈ l.
Proof.
  intros Hnd. rewrite dict_of_items_list_to_map, rev_alt.
  change (rev_append l []) with (reverse l).
  rewrite <- elem_of_list_to_map
    by by rewrite fmap_reverse, reverse_Permutation.
  by rewrite elem_of_reverse.
Qed.

Lemma dict_of_items_is_Some (l : list (Z * Z * Z)) key :
  NoDup l.*1 → is_Some (dict_of_items l !! key) ↔ key ∈ l.*1.
Proof.
  intros Hnd. rewrite list_elem_of_fmap. split.
  - intros [v Hv%dict_of_items_lookup]; [|done]. by exists (key, v).
  - intros ([key' v] & -> & Hin). exists v. by apply dict_of_items_lookup.
Qed.

Lemma get_qubo_lookup grid key v :
  well_formed grid →
  (key, v) ∈ qubo_writes grid →
  dict_of_items (qubo_writes grid) !! key = Some v.
Proof.
  intros Hwf Hin. apply dict_of_items_lookup; [|done].
  apply qubo_writes_NoDup, num_vars_pos, Hwf.
Qed.

(** X14.  Every coefficient of the QUBO of a well-formed grid is the one
    its pass wrote: the diagonal holds the x and y shifts, with
    [ENCODING_BIAS] added from the second bit of each block on; the pair
    of an x bit and a y bit holds their angle shift; the pair of a bit and
    the bit before it in its block holds [-ENCODING_BIAS]. *)
Theorem get_qubo_coefficients (grid : list (list Z)) :
  well_formed grid →
  ∃ Q,
    _get_qubo grid = Ok Q ∧
    (∃ sh, _x_shift grid 0 = Ok sh ∧ Q !! (0, 0) = Some sh) ∧
    (∃ sh, _y_shift grid 0 = Ok sh ∧
           Q !! (num_vars grid, num_vars grid) = Some sh) ∧
    (∀ x, 1 ≤ x < num_vars grid →
       ∃ sh, _x_shift grid x = Ok sh ∧
             Q !! (x, x) = Some (ENCODING_BIAS + sh) ∧
             Q !! (x, x - 1) = Some (- ENCODING_BIAS)) ∧
    (∀ y, 1 ≤ y < num_vars grid →
       ∃ sh, _y_shift grid y = Ok sh ∧
             Q !! (num_vars grid + y, num_vars grid + y)
               = Some (ENCODING_BIAS + sh) ∧
             Q !! (num_vars grid + y, num_vars grid + y - 1)
               = Some (- ENCODING_BIAS)) ∧
    (∀ x y, 0 ≤ x < num_vars grid → 0 ≤ y < num_vars grid →
       ∃ sh, _angle_shift grid x y = Ok sh ∧
             Q !! (x, num_vars grid + y) = Some sh).
Proof.
  intros Hwf. pose proof (num_vars_pos grid Hwf) as Hk.
  exists (dict_of_items (qubo_writes grid)).
  split; [by apply get_qubo_writes|].
  unfold qubo_writes. split_and!.
  - exists (x_shift grid 0). split; [apply x_shift_Ok; done || lia|].
    apply get_qubo_lookup; [done|]. unfold qubo_writes.
    rewrite !elem_of_app, elem_of_cons. by right; left; left.
  - exists (y_shift grid 0). split; [apply y_shift_Ok; done || lia|].
    apply get_qubo_lookup; [done|]. unfold qubo_writes.
    rewrite !elem_of_app, !elem_of_cons. by right; right; right; left; left.
  - intros x Hx. exists (x_shift grid x).
    split_and!; [apply x_shift_Ok; done || lia|..];
      (apply get_qubo_lookup; [done|]); unfold qubo_writes;
      rewrite !elem_of_app.
    + left. apply list_elem_of_fmap. exists x.
      split; [done|apply elem_of_seqZ; lia].
    + do 5 right. left. apply list_elem_of_fmap. exists x.
      split; [done|apply elem_of_seqZ; lia].
  - intros y Hy. exists (y_shift grid y).
    split_and!; [apply y_shift_Ok; done || lia|..];
      (apply get_qubo_lookup; [done|]); unfold qubo_writes;
      rewrite !elem_of_app.
    + do 2 right. left. apply list_elem_of_fmap. exists y.
      split; [done|apply elem_of_seqZ; lia].
    + do 6 right. apply list_elem_of_fmap. exists y.
      split; [done|apply elem_of_seqZ; lia].
  - intros x y Hx Hy. exists (angle_shift grid x y).
    split; [by apply angle_shift_Ok|].
    apply get_qubo_lookup; [done|]. unfold qubo_writes.
    rewrite !elem_of_app. do 4 right. left.
    apply list_elem_of_fmap. exists (x, y).
    split; [done|by apply elem_of_index_pairs].
Qed.

Lemma get_qubo_coefficients_witness :
  ∃ Q,
    _get_qubo LANDSCAPE = Ok Q ∧
    ∃ sh, _x_shift LANDSCAPE 0 = Ok sh ∧ Q !! (0, 0) = Some sh.
Proof.
  destruct (get_qubo_coefficients LANDSCAPE) as (Q & HQ & Hx0 & _).
  - split; [vm_compute; discriminate|].
    repeat constructor; vm_compute; discriminate.
  - exists Q. split; [exact HQ|exact Hx0].
Defined.

Lemma qubo_writes_key_iff grid i j :
  let k := num_vars grid in
  1 ≤ k →
  (i, j) ∈ (qubo_writes grid).*1 ↔
  (i = j ∧ 0 ≤ i < 2 * k) ∨
  (0 ≤ i < k ∧ k ≤ j < 2 * k) ∨
  (i = j + 1 ∧ 0 ≤ j ∧ i < 2 * k ∧ i ≠ k).
Proof.
  intros k Hk. rewrite qubo_writes_keys. fold k.
  rewrite !elem_of_app, !list_elem_of_fmap, !elem_of_cons, elem_of_nil.
  unfold range. setoid_rewrite elem_of_seqZ.
  setoid_rewrite elem_of_index_pairs. split.
  - intros [(x & [= -> ->] & Hx)|[[[= -> ->]|[]]
      |[(y & [= -> ->] & Hy)|[[[= -> ->]|[]]
      |[([x y] & [= -> ->] & Hx & Hy)
      |[(x & [= -> ->] & Hx)|(y & [= -> ->] & Hy)]]]]]]; cbn in *; lia.
  - intros [[Heq Hi]|[[Hi Hj]|(Heq & Hj & Hi & Hne)]]; [subst j| |subst i].
    + destruct (decide (i = 0)) as [->|]; [by right; left; left|].
      destruct (decide (i < k)); [left; exists i; split; [done|lia]|].
      destruct (decide (i = k)) as [->|];
        [by right; right; right; left; left|].
      right; right; left. exists (i - k). split; [f_equal; lia|lia].
    + do 4 right. left. exists (i, j - k). cbn.
      split; [f_equal; lia|lia].
    + destruct (decide (j + 1 < k)).
      * do 5 right. left. exists (j + 1). split; [f_equal; lia|lia].
      * do 6 right. exists (j + 1 - k). split; [f_equal; lia|lia].
Qed.

(** X15.  The keys of the QUBO of a well-formed grid over its
    [2 * (n - 1)] variables are exactly the pairs [(i, i)], the pairs of an
    x variable and a y variable in this order, and the pairs
    [(i, i - 1)] of two variables of one block; so every key is within the
    variables, and a pair of different variables is never stored in both
    orders. *)
Theorem get_qubo_keys (grid : list (list Z)) :
  well_formed grid →
  ∃ Q,
    _get_qubo grid = Ok Q ∧
    (∀ i j, is_Some (Q !! (i, j)) ↔
       (i = j ∧ 0 ≤ i < 2 * num_vars grid) ∨
       (0 ≤ i < num_vars grid ∧ num_vars grid ≤ j < 2 * num_vars grid) ∨
       (i = j + 1 ∧ 0 ≤ j ∧ i < 2 * num_vars grid ∧ i ≠ num_vars grid)) ∧
    (∀ i j, i ≠ j → is_Some (Q !! (i, j)) → Q !! (j, i) = None).
Proof.
  intros Hwf. pose proof (num_vars_pos grid Hwf) as Hk.
  exists (dict_of_items (qubo_writes grid)).
  split; [by apply get_qubo_writes|].
  assert (Hkeys : ∀ i j,
    is_Some (dict_of_items (qubo_writes grid) !! (i, j)) ↔
    (i = j ∧ 0 ≤ i < 2 * num_vars grid) ∨
    (0 ≤ i < num_vars grid ∧ num_vars grid ≤ j < 2 * num_vars grid) ∨
    (i = j + 1 ∧ 0 ≤ j ∧ i < 2 * num_vars grid ∧ i ≠ num_vars grid)).
  { intros i j. rewrite dict_of_items_is_Some by by apply qubo_writes_NoDup.
    by apply qubo_writes_key_iff. }
  split; [done|].
  intros i j Hne Hij. apply eq_None_not_Some. intros Hji.
  apply Hkeys in Hij, Hji. lia.
Qed.

Lemma get_qubo_keys_witness :
  ∃ Q,
    _get_qubo LANDSCAPE = Ok Q ∧
    ∀ i j, i ≠ j → is_Some (Q !! (i, j)) → Q !! (j, i) = None.
Proof.
  destruct (get_qubo_keys LANDSCAPE) as (Q & HQ & _ & Hmirror).
  - split; [vm_compute; discriminate|].
    repeat constructor; vm_compute; discriminate.
  - exists Q. split; [exact HQ|exact Hmirror].
Defined.

Lemma bind_Ok_inv {A B : Type} (c : result A) (f : A → result B) b :
  c ≫= f = Ok b → ∃ a, c = Ok a ∧ f a = Ok b.
Proof. destruct c as [a|e]; [by exists a|done]. Qed.

Lemma mapM_Ok_inv {A B : Type} (f : A → result B) (l : list A) bs :
  mapM f l = Ok bs → ∀ a, a ∈ l → ∃ b, f a = Ok b.
Proof.
  revert bs. induction l as [|a' l IH]; intros bs Hrun a Ha;
    [by apply elem_of_nil in Ha|].
  cbn in Hrun. apply bind_Ok_inv in Hrun as (b & Hb & Hrun).
  apply bind_Ok_inv in Hrun as (bs' & Hbs & _).
  apply elem_of_cons in Ha as [->|Ha]; [by eauto|]. by eapply IH.
Qed.

Lemma altitude_Ok_inv grid x y v :
  0 ≤ x → 0 ≤ y → altitude grid x y = Ok v →
  ∃ row, grid !! Z.to_nat x = Some row ∧ y < len row.
Proof.
  intros Hx Hy Halt. unfold altitude in Halt.
  apply bind_Ok_inv in Halt as (row & Hrow & Hv).
  apply getitem_Ok_nonneg in Hrow, Hv; [|done..].
  exists row. split; [done|]. apply lookup_lt_Some in Hv. unfold len. lia.
Qed.

Lemma get_qubo_short grid : len grid < 2 → _get_qubo grid = Raise IndexError.
Proof.
  unfold len. intros Hlen.
  destruct grid as [|row [|row' grid]]; [done|done|cbn in Hlen; lia].
Qed.

Lemma get_qubo_Ok_well_formed grid Q : _get_qubo grid = Ok Q → well_formed grid.
Proof.
  intros HQ.
  destruct (decide (len grid < 2)) as [Hshort|Hn].
  { by rewrite get_qubo_short in HQ. }
  split; [lia|]. set (k := num_vars grid).
  assert (Hk : 1 ≤ k) by (unfold k, num_vars; lia).
  unfold _get_qubo in HQ.
  apply bind_Ok_inv in HQ as (xd & _ & HQ).
  apply bind_Ok_inv in HQ as (sx0 & _ & HQ).
  apply bind_Ok_inv in HQ as (x0 & _ & HQ).
  apply bind_Ok_inv in HQ as (yd & _ & HQ).
  apply bind_Ok_inv in HQ as (sy0 & _ & HQ).
  apply bind_Ok_inv in HQ as (y0 & _ & HQ).
  apply bind_Ok_inv in HQ as (cr & Hcr & _).
  assert (Hangle : ∀ x, 0 ≤ x < k →
    ∃ rowx rowx',
      grid !! Z.to_nat x = Some rowx ∧ k < len rowx ∧
      grid !! Z.to_nat (x + 1) = Some rowx' ∧ k < len rowx').
  { intros x Hx.
    destruct (mapM_Ok_inv _ _ _ Hcr (x, k - 1)) as [item Hitem].
    { apply elem_of_index_pairs. cbn. fold k. lia. }
    cbn in Hitem.
    apply bind_Ok_inv in Hitem as (xv & _ & Hitem).
    apply bind_Ok_inv in Hitem as (yv & _ & Hitem).
    apply bind_Ok_inv in Hitem as (sh & Hsh & _).
    unfold _angle_shift in Hsh.
    apply bind_Ok_inv in Hsh as (a & Ha & Hsh).
    apply bind_Ok_inv in Hsh as (b & Hb & _).
    replace (k - 1 + 1) with k in Ha, Hb by lia.
    apply altitude_Ok_inv in Ha as (rowx' & ? & ?); [|lia..].
    apply altitude_Ok_inv in Hb as (rowx & ? & ?); [|lia..].
    by exists rowx, rowx'. }
  apply Forall_lookup. intros r row Hrow.
  pose proof (lookup_lt_Some _ _ _ Hrow) as Hr.
  assert (len grid = k + 1) as Hlen by (unfold k, num_vars; lia).
  unfold len in Hlen.
  destruct (decide (Z.of_nat r < k)) as [Hlt|Hge].
  - destruct (Hangle (Z.of_nat r)) as (rowx & _ & Hx & Hxlen & _); [lia|].
    rewrite Nat2Z.id in Hx. unfold len in *. simplify_eq. lia.
  - destruct (Hangle (k - 1)) as (_ & rowx' & _ & _ & Hx & Hxlen); [lia|].
    replace (Z.to_nat (k - 1 + 1)) with r in Hx by lia.
    unfold len in *. simplify_eq. lia.
Qed.

(** X16.  [_get_qubo] returns a QUBO exactly on the well-formed grids:
    those of at least two rows whose rows each have at least as many
    entries as the grid has rows.  On every other grid it raises
    [IndexError]. *)
Theorem get_qubo_Ok_iff (grid : list (list Z)) :
  ((∃ Q, _get_qubo grid = Ok Q) ↔ well_formed grid) ∧
  (¬ well_formed grid → _get_qubo grid = Raise IndexError).
Proof.
  assert (Hiff : (∃ Q, _get_qubo grid = Ok Q) ↔ well_formed grid).
  { split.
    - intros [Q HQ]. by apply (get_qubo_Ok_well_formed grid Q).
    - intros Hwf. eexists. by apply get_qubo_writes. }
  split; [done|]. intros Hnwf.
  destruct (_get_qubo grid) as [Q|[]] eqn:HQ; [|done].
  destruct Hnwf. apply Hiff. by exists Q.
Qed.

Lemma get_qubo_Ok_iff_witness :
  _get_qubo [[4; 3]; [3; 2]; [3; 2]] = Raise IndexError.
Proof.
  apply (proj2 (get_qubo_Ok_iff [[4; 3]; [3; 2]; [3; 2]])).
  intros [_ Hrows]. apply Forall_cons in Hrows as [Hrow _].
  vm_compute in Hrow. by apply Hrow.
Defined.

Lemma corner_len grid : len (corner grid) = len grid.
Proof. unfold len, corner. by rewrite length_fmap. Qed.

Lemma num_vars_corner grid : num_vars (corner grid) = num_vars grid.
Proof. unfold num_vars. by rewrite corner_len. Qed.

Lemma alt_corner grid x y :
  0 ≤ y < len grid → alt (corner grid) x y = alt grid x y.
Proof.
  unfold len. intros Hy. unfold alt, corner. rewrite list_lookup_fmap.
  destruct (grid !! Z.to_nat x) as [row|]; [cbn|done].
  by rewrite lookup_take_lt by lia.
Qed.

Lemma well_formed_corner grid : well_formed (corner grid) ↔ well_formed grid.
Proof.
  unfold well_formed. rewrite corner_len. unfold corner at 1.
  rewrite Forall_fmap. unfold len, compose.
  setoid_rewrite length_take.
  split; (intros [Hn Hrows]; split; [done|]);
    (eapply Forall_impl; [exact Hrows|]); cbn; intros row ?; lia.
Qed.

Lemma qubo_writes_corner grid :
  1 ≤ num_vars grid → qubo_writes (corner grid) = qubo_writes grid.
Proof.
  intros Hk.
  assert (Hn : len grid = num_vars grid + 1) by (unfold num_vars; lia).
  assert (Hxd : x_diag_writes (corner grid) = x_diag_writes grid).
  { unfold x_diag_writes, x_shift. rewrite num_vars_corner.
    apply list_fmap_ext. intros ? x _. by rewrite !alt_corner by lia. }
  assert (Hyd : y_diag_writes (corner grid) = y_diag_writes grid).
  { unfold y_diag_writes, y_shift. rewrite num_vars_corner.
    apply list_fmap_ext. intros ? y Hy%list_elem_of_lookup_2%elem_of_seqZ.
    by rewrite !alt_corner by lia. }
  assert (Hcr : cross_writes (corner grid) = cross_writes grid).
  { unfold cross_writes, angle_shift. rewrite num_vars_corner.
    apply list_fmap_ext.
    intros ? [x y] [_ Hy]%list_elem_of_lookup_2%elem_of_index_pairs.
    cbn in *. by rewrite !alt_corner by lia. }
  unfold qubo_writes. rewrite Hxd, Hyd, Hcr.
  unfold x0_write, y0_write, x_adj_writes, y_adj_writes, x_shift, y_shift.
  rewrite !num_vars_corner.
  by rewrite !(alt_corner grid _ 0), (alt_corner grid 0 (0 + 1)) by lia.
Qed.

(** X17.  [_get_qubo] reads only the first [n] columns of a grid of [n]
    rows: it returns the same QUBO, or raises alike, on the grid cut to
    these columns; the entries beyond them are never consulted. *)
Theorem get_qubo_corner (grid : list (list Z)) :
  _get_qubo (corner grid) = _get_qubo grid.
Proof.
  destruct (_get_qubo grid) as [Q|[]] eqn:HQ.
  - pose proof (get_qubo_Ok_well_formed grid Q HQ) as Hwf.
    rewrite get_qubo_writes in HQ by done. rewrite <- HQ.
    rewrite get_qubo_writes by by apply well_formed_corner.
    by rewrite qubo_writes_corner by by apply num_vars_pos.
  - destruct (_get_qubo (corner grid)) as [Q'|[]] eqn:HQ'; [|done].
    apply get_qubo_Ok_well_formed, (proj1 (well_formed_corner grid)) in HQ'.
    rewrite get_qubo_writes in HQ by done. discriminate HQ.
Qed.
